(** * DevSync: a shallow embedding of [devsync.py]

    The development follows the program file by file of the Python runtime
    it leans on: strings and [os.path] (module [py]), [re] (module [re]),
    [ast] (module [ast]), the directory tree read by [os.walk] (module
    [os]), then the functions of [devsync.py] themselves, and finally the
    properties proved about them. *)

From Stdlib Require Import String Ascii.
From Stdlib Require Import List NArith Arith Lia Bool Sorted Permutation.
From Equations Require Import Equations.
Import ListNotations.

Set Implicit Arguments.
Set Warnings "-register-all".

(* ===================================================================== *)
(** * Python strings                                                      *)
(* ===================================================================== *)

(** A Python [str] is a sequence of Unicode code points. *)
Definition char := N.
Definition str := list char.

(** An ASCII literal of the source, as a [str]. *)
Definition txt (s : string) : str := map N_of_ascii (list_ascii_of_string s).

(** A single ASCII character of the source. *)
Definition ch (s : string) : char := hd 0%N (txt s).

(** The line feed written [\n] in the source. *)
Definition LF : char := 10%N.

Module py.

(** [a == b] on strings. *)
Fixpoint str_eqb (a b : str) : bool :=
  match a, b with
  | [], [] => true
  | x :: a', y :: b' => N.eqb x y && str_eqb a' b'
  | _, _ => false
  end.

(** [x in l] for a list of strings: a linear scan with [==]. *)
Fixpoint contains (l : list str) (x : str) : bool :=
  match l with
  | [] => false
  | y :: l' => str_eqb x y || contains l' x
  end.

(** [Py_UNICODE_ISSPACE]: the code points for which [str.isspace] holds;
    [str.split] and the pattern [\s] both use it. *)
Definition isspace (c : char) : bool :=
  ((9 <=? c) && (c <=? 13) || (28 <=? c) && (c <=? 32)
   || (c =? 0x85) || (c =? 0xA0) || (c =? 0x1680)
   || (0x2000 <=? c) && (c <=? 0x200A)
   || (c =? 0x2028) || (c =? 0x2029) || (c =? 0x202F)
   || (c =? 0x205F) || (c =? 0x3000))%N.

(** [s.split()] without a separator: the maximal runs of characters that
    are not whitespace, in order; [cur] is the run being read, reversed. *)
Fixpoint split_from (cur : str) (s : str) : list str :=
  match s with
  | [] => match cur with [] => [] | _ => [rev cur] end
  | c :: s' =>
      if isspace c
      then match cur with
           | [] => split_from [] s'
           | _ => rev cur :: split_from [] s'
           end
      else split_from (c :: cur) s'
  end.

Definition split (s : str) : list str := split_from [] s.

(** [s[:n]]. *)
Definition slice_to (n : nat) (s : str) : str := firstn n s.

(** [s.endswith(suffix)]. *)
Definition endswith (s suffix : str) : bool :=
  (length suffix <=? length s)
  && str_eqb (skipn (length s - length suffix) s) suffix.

(** [s.endswith((e1, e2, ...))] and [any(s.endswith(e) for e in exts)]. *)
Definition endswith_any (s : str) (suffixes : list str) : bool :=
  existsb (fun ext => endswith s ext) suffixes.

(** [s.startswith(prefix)]. *)
Fixpoint startswith (s prefix : str) : bool :=
  match prefix, s with
  | [], _ => true
  | p :: prefix', c :: s' => N.eqb c p && startswith s' prefix'
  | _ :: _, [] => false
  end.

(** [os.path.join(a, b)] of [posixpath]. *)
Definition join (a b : str) : str :=
  if startswith b (txt "/") then b
  else if match a with [] => true | _ => endswith a (txt "/") end
       then a ++ b
       else a ++ txt "/" ++ b.

(** [os.path.basename(p)] of [posixpath]: [p[p.rfind('/') + 1:]]. *)
Definition basename (p : str) : str :=
  fold_left (fun tail c => if N.eqb c (ch "/") then [] else tail ++ [c]) p [].

End py.

(* ===================================================================== *)
(** * Regular expressions: the part of [re] the two patterns use          *)
(* ===================================================================== *)

Module re.

(** Sets of characters. *)
Inductive charset :=
| Lit (c : char)               (* one literal character *)
| Range (lo hi : char)         (* [lo-hi] *)
| Word                         (* \w *)
| Space                        (* \s *)
| Union (a b : charset).       (* [ab] *)

(** Patterns. Repetition is greedy and applies to a character set, as in
    both patterns of the source; the only group is group 1. *)
Inductive regex :=
| Empty
| Boundary                     (* \b *)
| One (cs : charset)
| Star (cs : charset)          (* cs* *)
| Plus (cs : charset)          (* cs+ *)
| Seq (r1 r2 : regex)
| Alt (r1 r2 : regex)          (* r1|r2 *)
| Group (r : regex).           (* (r) *)

(** A literal word of the pattern. *)
Fixpoint literal (s : str) : regex :=
  match s with
  | [] => Empty
  | c :: s' => Seq (One (Lit c)) (literal s')
  end.

(** A match object: [m.start()], [m.end()] and [m.group(1)] ([None] when
    the group took no part in the match). *)
Record match_object := Match {
  m_start : nat;
  m_end : nat;
  group1 : option str
}.

Section Engine.

(** [Py_UNICODE_ISALNUM] outside ASCII: the Unicode character database
    of the interpreter, which is not part of the program. *)
Variable unicode_isalnum : char -> bool.

Definition isalnum (c : char) : bool :=
  if (c <? 128)%N
  then ((48 <=? c) && (c <=? 57) || (65 <=? c) && (c <=? 90)
        || (97 <=? c) && (c <=? 122))%N
  else unicode_isalnum c.

(** [SRE_UNI_IS_WORD]. *)
Definition isword (c : char) : bool := isalnum c || (c =? 95)%N.

Fixpoint in_set (cs : charset) (c : char) : bool :=
  match cs with
  | Lit x => (c =? x)%N
  | Range lo hi => ((lo <=? c) && (c <=? hi))%N
  | Word => isword c
  | Space => py.isspace c
  | Union a b => in_set a c || in_set b c
  end.

(** The matcher's position in the subject: the characters before it
    (nearest first), the characters after it, and group 1 so far. *)
Record state := State {
  before : str;
  after : str;
  captured : option str
}.

Definition position (st : state) : nat := length (before st).

Definition word_at (s : str) : bool :=
  match s with
  | [] => false
  | c :: _ => isword c
  end.

(** [\b]: exactly one of the two neighbours is a word character. *)
Definition at_boundary (st : state) : bool :=
  xorb (word_at (before st)) (word_at (after st)).

(** Greedy repetition: take as many characters as the set allows, and
    give them back one by one while the rest of the pattern fails. *)
Fixpoint repeat_set (p : char -> bool) (bef aft : str) (g : option str)
         (k : state -> option state) : option state :=
  match aft with
  | c :: aft' =>
      if p c
      then match repeat_set p (c :: bef) aft' g k with
           | Some r => Some r
           | None => k (State bef aft g)
           end
      else k (State bef aft g)
  | [] => k (State bef aft g)
  end.

(** Backtracking match of [r] at [st]; [k] is the rest of the pattern. *)
Fixpoint matches (r : regex) (st : state) (k : state -> option state)
  : option state :=
  match r with
  | Empty => k st
  | Boundary => if at_boundary st then k st else None
  | One cs =>
      match after st with
      | c :: aft' =>
          if in_set cs c then k (State (c :: before st) aft' (captured st))
          else None
      | [] => None
      end
  | Star cs => repeat_set (in_set cs) (before st) (after st) (captured st) k
  | Plus cs =>
      match after st with
      | c :: aft' =>
          if in_set cs c
          then repeat_set (in_set cs) (c :: before st) aft' (captured st) k
          else None
      | [] => None
      end
  | Seq r1 r2 => matches r1 st (fun st' => matches r2 st' k)
  | Alt r1 r2 =>
      match matches r1 st k with
      | Some res => Some res
      | None => matches r2 st k
      end
  | Group r1 =>
      matches r1 st (fun st' =>
        k (State (before st') (after st')
             (Some (rev (firstn (position st' - position st)
                                (before st'))))))
  end.

(** One attempt at the position [bef | aft]. With [must_advance] an
    empty match is refused (the previous match was empty and ended
    here). *)
Definition attempt (r : regex) (bef aft : str) (must_advance : bool)
  : option match_object :=
  match matches r (State bef aft None)
          (fun st' => if must_advance && (position st' =? length bef)
                      then None else Some st')
  with
  | Some st' => Some (Match (length bef) (position st') (captured st'))
  | None => None
  end.

(** [re.finditer]: successive non-overlapping matches, left to right.
    [skip] counts the characters of the last match still to pass. *)
Fixpoint scan (r : regex) (bef aft : str) (skip : nat)
  : list match_object :=
  match skip with
  | S n =>
      match aft with
      | c :: aft' => scan r (c :: bef) aft' n
      | [] => []
      end
  | 0 =>
      let next n :=
        match aft with
        | c :: aft' => scan r (c :: bef) aft' n
        | [] => []
        end in
      match attempt r bef aft false with
      | None => next 0
      | Some m =>
          if m_end m =? m_start m
          then m :: match attempt r bef aft true with
                    | None => next 0
                    | Some m' => m' :: next (m_end m' - m_start m' - 1)
                    end
          else m :: next (m_end m - m_start m - 1)
      end
  end.

Definition finditer (r : regex) (s : str) : list match_object :=
  scan r [] s 0.

(** [re.findall] for a pattern with one group: the text of group 1 of
    every match, the empty string where the group is unset. *)
Definition findall (r : regex) (s : str) : list str :=
  map (fun m => match group1 m with Some g => g | None => [] end)
      (finditer r s).

End Engine.

End re.

(* ===================================================================== *)
(** * Syntax trees: the part of [ast] the program uses                    *)
(* ===================================================================== *)

Module ast.

(** The classes of nodes the program tells apart. [AsyncFunctionDef] is
    a class of its own, not a subclass of [FunctionDef]. *)
Inductive node_class :=
| Mod
| ClassDef
| FunctionDef
| AsyncFunctionDef
| Other.

(** A node: its class, its [name] (for definitions), its [lineno], and
    its child nodes in the order [iter_child_nodes] yields them. *)
Inductive node :=
| Node (kind : node_class) (name : str) (lineno : nat)
       (children : list node).

Definition kind (n : node) : node_class :=
  match n with Node k _ _ _ => k end.
Definition name (n : node) : str :=
  match n with Node _ x _ _ => x end.
Definition lineno (n : node) : nat :=
  match n with Node _ _ l _ => l end.
Definition iter_child_nodes (n : node) : list node :=
  match n with Node _ _ _ cs => cs end.

Definition class_eqb (a b : node_class) : bool :=
  match a, b with
  | Mod, Mod | ClassDef, ClassDef | FunctionDef, FunctionDef
  | AsyncFunctionDef, AsyncFunctionDef | Other, Other => true
  | _, _ => false
  end.

(** [isinstance(node, cls)]. *)
Definition isinstance (n : node) (cls : node_class) : bool :=
  class_eqb (kind n) cls.

Fixpoint size (n : node) : nat :=
  match n with
  | Node _ _ _ cs =>
      S ((fix sizes (l : list node) : nat :=
            match l with
            | [] => 0
            | c :: l' => size c + sizes l'
            end) cs)
  end.

Fixpoint forest_size (q : list node) : nat :=
  match q with
  | [] => 0
  | n :: q' => size n + forest_size q'
  end.

(** The loop of [ast.walk]: pop the first node of the deque, push its
    children at the back, yield it. *)
Equations? walk_queue (todo : list node) : list node
  by wf (forest_size todo) lt :=
  walk_queue [] := [];
  walk_queue (n :: rest) := n :: walk_queue (rest ++ iter_child_nodes n).
Proof.
  destruct n as [k x l cs]. simpl.
  fold (forest_size cs).
  assert (H : forall a b, forest_size (a ++ b) = forest_size a + forest_size b).
  { induction a as [|y a IH]; intros b; simpl; [reflexivity|].
    rewrite IH. lia. }
  rewrite H. lia.
Qed.

(** [ast.walk(tree)]. *)
Definition walk (tree : node) : list node := walk_queue [tree].

(** [within n t]: the node [n] occurs in the tree [t], at any depth. *)
Inductive within (n : node) : node -> Prop :=
| within_self : within n n
| within_child t c :
    In c (iter_child_nodes t) -> within n c -> within n t.

(** The nodes [d] levels below the root of [t], from left to right. *)
Fixpoint level (d : nat) (t : node) : list node :=
  match d with
  | 0 => [t]
  | S d' => flat_map (level d') (iter_child_nodes t)
  end.

(** The number of levels of a tree. *)
Fixpoint height (n : node) : nat :=
  match n with
  | Node _ _ _ cs =>
      S ((fix heights (l : list node) : nat :=
            match l with
            | [] => 0
            | c :: l' => Nat.max (height c) (heights l')
            end) cs)
  end.

(** The nodes in the order of the source text: a node, then its
    children's subtrees one after the other. *)
Fixpoint preorder (n : node) : list node :=
  match n with
  | Node _ _ _ cs =>
      n :: (fix each (l : list node) : list node :=
              match l with
              | [] => []
              | c :: l' => preorder c ++ each l'
              end) cs
  end.

End ast.

(* ===================================================================== *)
(** * Directory trees: what [os.walk] reads                               *)
(* ===================================================================== *)

Module os.

(** A directory: the names of its entries that are not directories, and
    its subdirectories by name, both in the order the system lists them. *)
Inductive dir :=
| Dir (files : list str) (subdirs : list (str * dir)).

(** [os.walk(top)], top-down: the triple of a directory, then the walks
    of its subdirectories. *)
Fixpoint walk (top : str) (d : dir) : list (str * list str * list str) :=
  match d with
  | Dir files subdirs =>
      (top, map fst subdirs, files)
      :: (fix each (l : list (str * dir)) :=
            match l with
            | [] => []
            | (dirname, sub) :: l' =>
                walk (py.join top dirname) sub ++ each l'
            end) subdirs
  end.

(** [holds d ds name]: the directory [d] has a file [name] in its
    subdirectory reached through the names [ds] ([[]] is [d] itself). *)
Inductive holds : dir -> list str -> str -> Prop :=
| holds_here files subdirs name :
    In name files -> holds (Dir files subdirs) [] name
| holds_below files subdirs dirname sub ds name :
    In (dirname, sub) subdirs -> holds sub ds name ->
    holds (Dir files subdirs) (dirname :: ds) name.

(** The path of that file, seen from [top]. *)
Definition path_of (top : str) (ds : list str) (name : str) : str :=
  py.join (fold_left py.join ds top) name.

(** A name of a directory entry is not empty and has no slash. *)
Definition valid_name (n : str) : Prop := n <> [] /\ ~ In (ch "/") n.

(** What a file system guarantees: valid names, and no name twice among
    the files or among the subdirectories of one directory. *)
Inductive well_formed : dir -> Prop :=
| well_formed_dir files subdirs :
    NoDup files -> NoDup (map fst subdirs) ->
    Forall valid_name files -> Forall valid_name (map fst subdirs) ->
    Forall (fun e => well_formed (snd e)) subdirs ->
    well_formed (Dir files subdirs).

End os.

(* ===================================================================== *)
(** * Effects                                                             *)
(* ===================================================================== *)

(** The exceptions that reach the top level; none is caught anywhere. *)
Inductive exception :=
| IndexError
| KeyError (key : str)
| SyntaxError
| OSError
| ServiceError
| UnicodeEncodeError.

(** The request sent to the summarization pipeline. *)
Record request := Request {
  text : str;
  max_length : nat;
  min_length : nat;
  do_sample : bool
}.

(** A dict of strings, as the pipeline returns them. *)
Definition dict := list (str * str).

Fixpoint dict_get (d : dict) (key : str) : exception + str :=
  match d with
  | [] => inl (KeyError key)
  | (k, v) :: d' => if py.str_eqb k key then inr v else dict_get d' key
  end.

(** Programs that read files, call the summarizer, write files and print.
    [Open_write path writes k] is a whole [with open(path, "w",
    encoding="utf-8") as f] block: [writes] are the arguments of its
    successive [f.write] calls, and [k] is what follows the block. *)
Inductive prog (A : Type) : Type :=
| Ret (a : A)
| Raise (e : exception)
| Open_read (path : str) (k : str -> prog A)
| Call_summarizer (req : request) (k : list dict -> prog A)
| Open_write (path : str) (writes : list str) (k : prog A)
| Print (line : str) (k : prog A).

Arguments Raise {A} e.

Fixpoint bind {A B} (p : prog A) (f : A -> prog B) : prog B :=
  match p with
  | Ret a => f a
  | Raise e => Raise e
  | Open_read path k => Open_read path (fun s => bind (k s) f)
  | Call_summarizer req k => Call_summarizer req (fun r => bind (k r) f)
  | Open_write path writes k => Open_write path writes (bind k f)
  | Print line k => Print line (bind k f)
  end.

Notation "x <- p ;; q" := (bind p (fun x => q))
  (at level 61, p at next level, right associativity).

(** What the world answers: the content of a file, the reply of the
    model, and the errors of output. [create path] is the error of opening
    [path] for writing; [storage path f] is the error of the next write to
    [path], or of closing it, when the text [f] has been written;
    [console line] is the error of printing [line]. [None] means that the
    operation succeeds. *)
Record environment := Environment {
  disk : str -> exception + str;
  summarizer : request -> exception + list dict;
  create : str -> option exception;
  storage : str -> str -> option exception;
  console : str -> option exception
}.

(** A text the [utf-8] codec can encode: one without surrogate code points
    (they come from file names that are not valid UTF-8). *)
Definition encodable (s : str) : bool :=
  forallb (fun c => negb ((0xD800 <=? c) && (c <=? 0xDFFF))%N) s.

(** The [f.write] calls of a [with] block on a file that holds [f] so far,
    then the closing of the file: the outcome and the text the file holds
    in the end. A write first encodes its argument, and raises before
    anything of it reaches the file when that fails. *)
Fixpoint write_all (refuse : str -> option exception) (f : str)
         (writes : list str) : (exception + unit) * str :=
  match writes with
  | [] =>
      match refuse f with
      | Some e => (inl e, f)
      | None => (inr tt, f)
      end
  | s :: rest =>
      if encodable s
      then match refuse f with
           | Some e => (inl e, f)
           | None => write_all refuse (f ++ s) rest
           end
      else (inl UnicodeEncodeError, f)
  end.

(** What a run did, in order. [Wrote path content] is a file opened for
    writing and left holding [content]; [Printed line] a line that reached
    standard output. *)
Inductive effect :=
| Read (path : str)
| Summarized (req : request)
| Wrote (path : str) (content : str)
| Printed (line : str).

Fixpoint run {A} (env : environment) (p : prog A)
  : (exception + A) * list effect :=
  match p with
  | Ret a => (inr a, [])
  | Raise e => (inl e, [])
  | Open_read path k =>
      match disk env path with
      | inl e => (inl e, [Read path])
      | inr s => let (r, t) := run env (k s) in (r, Read path :: t)
      end
  | Call_summarizer req k =>
      match summarizer env req with
      | inl e => (inl e, [Summarized req])
      | inr resp => let (r, t) := run env (k resp) in (r, Summarized req :: t)
      end
  | Open_write path writes k =>
      match create env path with
      | Some e => (inl e, [])
      | None =>
          match write_all (storage env path) [] writes with
          | (inl e, content) => (inl e, [Wrote path content])
          | (inr _, content) =>
              let (r, t) := run env k in (r, Wrote path content :: t)
          end
      end
  | Print line k =>
      match console env line with
      | Some e => (inl e, [])
      | None => let (r, t) := run env k in (r, Printed line :: t)
      end
  end.

(** The requests a run sent to the summarizer. *)
Fixpoint calls (t : list effect) : list request :=
  match t with
  | [] => []
  | Summarized req :: t' => req :: calls t'
  | _ :: t' => calls t'
  end.

(* ===================================================================== *)
(** * devsync.py                                                          *)
(* ===================================================================== *)

(** The record built for one file: the dict with keys ["file"],
    ["classes"], ["functions"] and ["summary"]. *)
Record file_info := FileInfo {
  file : str;
  classes : list str;
  functions : list str;
  summary : str
}.

(** [get_code_files(directory, extensions)] over the directory tree [fs]
    found at [directory]. *)
Definition get_code_files (fs : os.dir) (directory : str)
           (extensions : list str) : list str :=
  fold_left
    (fun code_files '(root, _, files) =>
       fold_left
         (fun code_files file =>
            if existsb (fun ext => py.endswith file ext) extensions
            then code_files ++ [py.join root file]
            else code_files)
         files code_files)
    (os.walk directory fs) [].

Definition too_short : str :=
  txt "Code is too short for meaningful summarization.".

(** [generate_ai_summary(content)]. *)
Definition generate_ai_summary (content : str) : prog str :=
  if length (py.split content) <? 50 then Ret too_short
  else
    let content := py.slice_to 1024 content in
    Call_summarizer (Request content 100 30 false) (fun summary =>
      match summary with
      | [] => Raise IndexError
      | d :: _ => match dict_get d (txt "summary_text") with
                  | inl e => Raise e
                  | inr s => Ret s
                  end
      end).

(** [\bclass\s+(\w+)] *)
Definition class_pattern : re.regex :=
  re.Seq re.Boundary
    (re.Seq (re.literal (txt "class"))
       (re.Seq (re.Plus re.Space) (re.Group (re.Plus re.Word)))).

(** [[a-zA-Z_]] *)
Definition identifier_start : re.charset :=
  re.Union (re.Range (ch "a") (ch "z"))
    (re.Union (re.Range (ch "A") (ch "Z")) (re.Lit (ch "_"))).

(** [\b(?:function\s+|[a-zA-Z_]\w*\s*\()\s*(\w+)\s*\(] *)
Definition function_pattern : re.regex :=
  re.Seq re.Boundary
    (re.Seq
       (re.Alt
          (re.Seq (re.literal (txt "function")) (re.Plus re.Space))
          (re.Seq (re.One identifier_start)
             (re.Seq (re.Star re.Word)
                (re.Seq (re.Star re.Space) (re.One (re.Lit (ch "(")))))))
       (re.Seq (re.Star re.Space)
          (re.Seq (re.Group (re.Plus re.Word))
             (re.Seq (re.Star re.Space) (re.One (re.Lit (ch "("))))))).

(** The two list comprehensions of [extract_python_info]. *)
Definition names_of (cls : ast.node_class) (tree : ast.node) : list str :=
  map ast.name (filter (fun node => ast.isinstance node cls) (ast.walk tree)).

(** One section of the report, written to the buffer [f]. *)
Definition write (f s : str) : str := f ++ s.

Definition write_item (f : str) (item : file_info) : str :=
  let f := write f (txt "## " ++ py.basename (file item) ++ [LF]) in
  let f := write f ([0x1F4C2%N] ++ txt " **Path:** `" ++ file item
                    ++ txt "`" ++ [LF; LF]) in
  let f :=
    match classes item with
    | [] => f
    | _ =>
        fold_left (fun f cls => write f (txt "- `" ++ cls ++ txt "`" ++ [LF]))
          (classes item) (write f (txt "### Classes" ++ [LF]))
    end in
  let f :=
    match functions item with
    | [] => f
    | _ =>
        fold_left (fun f func => write f (txt "- `" ++ func ++ txt "`" ++ [LF]))
          (functions item) (write f ([LF] ++ txt "### Functions" ++ [LF]))
    end in
  let f := write f ([LF] ++ txt "### AI-Powered Summary " ++ [0x1F4DC%N; LF]) in
  let f := write f ([0x1F4DD%N] ++ txt " " ++ summary item ++ [LF; LF]) in
  write f ([LF] ++ txt "---" ++ [LF]).

(** The text [generate_markdown_summary] writes to the output file when
    every write succeeds. *)
Definition report (code_info : list file_info) : str :=
  fold_left write_item code_info
    (write [] (txt "# CodeMap Summary (AI-Powered) " ++ [0x1F916%N; LF; LF])).

(** The arguments of the [f.write] calls for one record, in order. *)
Definition item_writes (item : file_info) : list str :=
  [txt "## " ++ py.basename (file item) ++ [LF];
   [0x1F4C2%N] ++ txt " **Path:** `" ++ file item ++ txt "`" ++ [LF; LF]]
  ++ match classes item with
     | [] => []
     | _ => (txt "### Classes" ++ [LF])
            :: map (fun cls => txt "- `" ++ cls ++ txt "`" ++ [LF])
                   (classes item)
     end
  ++ match functions item with
     | [] => []
     | _ => ([LF] ++ txt "### Functions" ++ [LF])
            :: map (fun func => txt "- `" ++ func ++ txt "`" ++ [LF])
                   (functions item)
     end
  ++ [[LF] ++ txt "### AI-Powered Summary " ++ [0x1F4DC%N; LF];
      [0x1F4DD%N] ++ txt " " ++ summary item ++ [LF; LF];
      [LF] ++ txt "---" ++ [LF]].

(** The arguments of all [f.write] calls of [generate_markdown_summary]. *)
Definition report_writes (code_info : list file_info) : list str :=
  (txt "# CodeMap Summary (AI-Powered) " ++ [0x1F916%N; LF; LF])
  :: flat_map item_writes code_info.

(** [generate_markdown_summary(code_info, output_file)]. *)
Definition generate_markdown_summary (code_info : list file_info)
           (output_file : str) : prog unit :=
  Open_write output_file (report_writes code_info)
    (Print ([0x2705%N]
            ++ txt " AI-powered code summary generated in DevSync.md!")
       (Ret tt)).

(** [search_codebase(code_info, search_term)]. *)
Definition search_codebase (code_info : list file_info) (search_term : str)
  : list str :=
  fold_left
    (fun results item =>
       if py.contains (classes item) search_term
          || py.contains (functions item) search_term
       then results ++ [file item]
       else results)
    code_info [].

(** [name] ends with one of the extensions. *)
Definition has_extension (extensions : list str) (name : str) : Prop :=
  exists ext, In ext extensions /\ exists stem, name = stem ++ ext.

(** The test of the loop of [search_codebase]. *)
Definition mentions (term : str) (item : file_info) : bool :=
  py.contains (classes item) term || py.contains (functions item) term.

(** The example of the specification: a C++ class with one method. *)
Definition shape_cpp : str :=
  txt "class Shape { int area() { return compute(x); } }".

(** The tree [ast.parse] builds for
<<
class A:
    def f(self):
        pass
def g():
    pass
>> *)
Definition nested_example : ast.node :=
  ast.Node ast.Mod [] 0
    [ ast.Node ast.ClassDef (txt "A") 1
        [ ast.Node ast.FunctionDef (txt "f") 2
            [ ast.Node ast.Other [] 0 [ast.Node ast.Other [] 2 []];
              ast.Node ast.Other [] 3 [] ] ];
      ast.Node ast.FunctionDef (txt "g") 4
        [ ast.Node ast.Other [] 0 [];
          ast.Node ast.Other [] 5 [] ] ].

Section Program.

(** Outside the program: the interpreter's character database and its
    parser, [ast.parse], which raises on text that is not valid Python. *)
Variable unicode_isalnum : char -> bool.
Variable ast_parse : str -> exception + ast.node.

(** [extract_python_info(file_path)]. *)
Definition extract_python_info (file_path : str) : prog file_info :=
  Open_read file_path (fun content =>
    match ast_parse content with
    | inl e => Raise e
    | inr tree =>
        let classes := names_of ast.ClassDef tree in
        let functions := names_of ast.FunctionDef tree in
        summary <- generate_ai_summary content ;;
        Ret (FileInfo file_path classes functions summary)
    end).

(** [extract_js_cpp_info(file_path)]. *)
Definition extract_js_cpp_info (file_path : str) : prog file_info :=
  Open_read file_path (fun content =>
    let classes := re.findall unicode_isalnum class_pattern content in
    let functions := re.findall unicode_isalnum function_pattern content in
    summary <- generate_ai_summary content ;;
    Ret (FileInfo file_path classes functions summary)).

(** The loop of the main block that fills [code_info]. *)
Fixpoint collect (files : list str) (code_info : list file_info)
  : prog (list file_info) :=
  match files with
  | [] => Ret code_info
  | file :: rest =>
      if py.endswith file (txt ".py")
      then info <- extract_python_info file ;;
           collect rest (code_info ++ [info])
      else if py.endswith_any file [txt ".js"; txt ".cpp"; txt ".java"]
      then info <- extract_js_cpp_info file ;;
           collect rest (code_info ++ [info])
      else collect rest code_info
  end.

Fixpoint print_each (results : list str) (k : prog unit) : prog unit :=
  match results with
  | [] => k
  | res :: rest => Print (txt "- " ++ res) (print_each rest k)
  end.

(** The main block, run in the directory tree [fs] with [sys.argv]. *)
Definition main (fs : os.dir) (argv : list str) : prog unit :=
  let files :=
    get_code_files fs (txt ".")
      [txt ".py"; txt ".js"; txt ".cpp"; txt ".java"] in
  code_info <- collect files [] ;;
  if 1 <? length argv
  then
    let search_term := nth 1 argv [] in
    let results := search_codebase code_info search_term in
    match results with
    | _ :: _ =>
        Print ([0x1F50D%N] ++ txt " Found `" ++ search_term ++ txt "` in:")
          (print_each results (Ret tt))
    | [] =>
        Print ([0x274C%N] ++ txt " `" ++ search_term
               ++ txt "` not found in the codebase.") (Ret tt)
    end
  else
    _ <- generate_markdown_summary code_info (txt "DevSync.md") ;;
    Print ([0x2705%N] ++ txt " Code summary generated in DevSync.md!")
      (Ret tt).

End Program.

(* ===================================================================== *)
(** * Notions the properties are stated with                              *)
(* ===================================================================== *)

(** [ordered_from lo l]: the matches of [l] lie at or after [lo], each
    ends no earlier than it starts, and each starts no earlier than the
    one before it ends. *)
Definition ordered_from (lo : nat) (l : list re.match_object) : Prop :=
  Forall (fun m => lo <= re.m_start m /\ re.m_start m <= re.m_end m) l /\
  StronglySorted (fun a b => re.m_end a <= re.m_start b) l.

Fixpoint forest_height (q : list ast.node) : nat :=
  match q with
  | [] => 0
  | n :: q' => Nat.max (ast.height n) (forest_height q')
  end.

(** The definitions of a tree in the order of the source text. *)
Definition names_in_text_order (cls : ast.node_class) (tree : ast.node)
  : list str :=
  map ast.name (filter (fun n => ast.isinstance n cls) (ast.preorder tree)).

(** The files [get_code_files] keeps in one directory. *)
Definition kept (extensions : list str) (files : list str) : list str :=
  filter (fun file => py.endswith_any file extensions) files.

(** The result of [get_code_files], directory by directory. *)
Fixpoint found (extensions : list str) (top : str) (d : os.dir) : list str :=
  match d with
  | os.Dir files subdirs =>
      map (py.join top) (kept extensions files)
      ++ flat_map (fun e => found extensions (py.join top (fst e)) (snd e))
                  subdirs
  end.

(** [top] with the slash [os.path.join] puts behind it. *)
Definition with_separator (top : str) : str :=
  match top with
  | [] => []
  | _ => if py.endswith top (txt "/") then top else top ++ txt "/"
  end.

(** The paths found, relative to the directory walked. *)
Fixpoint relative (extensions : list str) (d : os.dir) : list str :=
  match d with
  | os.Dir files subdirs =>
      kept extensions files
      ++ flat_map (fun e => map (fun r => fst e ++ txt "/" ++ r)
                                (relative extensions (snd e)))
                  subdirs
  end.

(** The part of a relative path before its first slash. *)
Fixpoint first_component (p : str) : str :=
  match p with
  | [] => []
  | c :: p' => if N.eqb c (ch "/") then [] else c :: first_component p'
  end.

(** Run [f] on every element in turn and keep the results, stopping at the
    first exception. *)
Fixpoint for_each {A B} (f : A -> prog B) (l : list A) : prog (list B) :=
  match l with
  | [] => Ret []
  | x :: l' => y <- f x ;; ys <- for_each f l' ;; Ret (y :: ys)
  end.

(** The files a run opened for reading. *)
Fixpoint reads (t : list effect) : list str :=
  match t with
  | [] => []
  | Read path :: t' => path :: reads t'
  | _ :: t' => reads t'
  end.

Definition default_extensions : list str :=
  [txt ".py"; txt ".js"; txt ".cpp"; txt ".java"].

(** The strategy for a file, by its extension alone. *)
Definition strategy (unicode_isalnum : char -> bool)
           (ast_parse : str -> exception + ast.node) (file : str)
  : prog file_info :=
  if py.endswith file (txt ".py")
  then extract_python_info ast_parse file
  else extract_js_cpp_info unicode_isalnum file.

(** A string without line feed. *)
Definition one_line (s : str) : bool := negb (existsb (N.eqb LF) s).

(** A record all of whose strings are without line feed. *)
Definition printable (item : file_info) : bool :=
  one_line (file item) && forallb one_line (classes item)
  && forallb one_line (functions item) && one_line (summary item).

(** The bullet list of names. *)
Definition bullets (names : list str) : str :=
  flat_map (fun x => txt "- `" ++ x ++ txt "`" ++ [LF]) names.

(** The end of a section: the summary and the rule, before [rest]. *)
Definition closing (item : file_info) (rest : str) : str :=
  ([LF] ++ txt "### AI-Powered Summary " ++ [0x1F4DC%N; LF; 0x1F4DD%N]
   ++ txt " ")
  ++ summary item ++ LF :: ([LF; LF] ++ txt "---" ++ [LF]) ++ rest.

Definition functions_block (item : file_info) (rest : str) : str :=
  match functions item with
  | [] => closing item rest
  | _ => ([LF] ++ txt "### Functions" ++ [LF])
         ++ bullets (functions item) ++ closing item rest
  end.

Definition classes_block (item : file_info) (rest : str) : str :=
  match classes item with
  | [] => functions_block item rest
  | _ => (txt "### Classes" ++ [LF])
         ++ bullets (classes item) ++ functions_block item rest
  end.

(** A whole section, before [rest]. *)
Definition section (item : file_info) (rest : str) : str :=
  txt "## "
  ++ py.basename (file item)
  ++ LF :: ([0x1F4C2%N] ++ txt " **Path:** `")
  ++ (file item ++ txt "`") ++ LF :: LF :: classes_block item rest.

Definition title : str :=
  txt "# CodeMap Summary (AI-Powered) " ++ [0x1F916%N; LF; LF].

Fixpoint sections (code_info : list file_info) : str :=
  match code_info with
  | [] => []
  | item :: l => section item (sections l)
  end.

(** One record whose summary holds line feeds, and two records. *)
Definition forged_summary : str :=
  txt "s" ++ [LF; LF; LF] ++ txt "---" ++ [LF] ++ txt "## b" ++ [LF]
  ++ [0x1F4C2%N] ++ txt " **Path:** `b`" ++ [LF; LF; LF]
  ++ txt "### AI-Powered Summary " ++ [0x1F4DC%N; LF; 0x1F4DD%N] ++ txt " t".

Definition one_record : list file_info :=
  [FileInfo (txt "a") [] [] forged_summary].

Definition two_records : list file_info :=
  [FileInfo (txt "a") [] [] (txt "s"); FileInfo (txt "b") [] [] (txt "t")].

(** An environment in which nothing outside the program answers. *)
Definition silent : environment :=
  Environment (fun _ => inl OSError) (fun _ => inl ServiceError)
              (fun _ => None) (fun _ _ => None) (fun _ => None).

(** Three hundred words, fifteen hundred characters. *)
Definition long_text : str := concat (repeat (txt "word ") 300).

(** A record that has [Foo] twice among its classes and once among its
    functions. *)
Definition foo_record : file_info :=
  FileInfo (txt "./a.py") [txt "Foo"; txt "Foo"] [txt "bar"; txt "Foo"]
           too_short.

(** A disk on which every file holds the text of [nested_example], and a
    parser that answers with its tree. *)
Definition nested_text : str :=
  txt "class A:" ++ [LF] ++ txt "    def f(self):" ++ [LF]
  ++ txt "        pass" ++ [LF] ++ txt "def g():" ++ [LF]
  ++ txt "    pass" ++ [LF].

Definition nested_disk : environment :=
  Environment (fun _ => inr nested_text) (fun _ => inl ServiceError)
              (fun _ => None) (fun _ _ => None) (fun _ => None).

(** A small tree: two files at the top, two in a subdirectory. *)
Definition small_tree : os.dir :=
  os.Dir [txt "a.py"; txt "notes.txt"]
         [(txt "src", os.Dir [txt "b.js"; txt "c.PY"] [])].

(** The effects of a run that leave a mark: files written, lines printed. *)
Fixpoint outputs (t : list effect) : list effect :=
  match t with
  | [] => []
  | Wrote path content :: t' => Wrote path content :: outputs t'
  | Printed line :: t' => Printed line :: outputs t'
  | _ :: t' => outputs t'
  end.

(** The files a run opened for writing. *)
Fixpoint written_files (t : list effect) : list str :=
  match t with
  | [] => []
  | Wrote path _ :: t' => path :: written_files t'
  | _ :: t' => written_files t'
  end.

(** The lines [print_each] prints. *)
Definition printed_paths (results : list str) : list effect :=
  map (fun res => Printed (txt "- " ++ res)) results.

Section Denotation.

Variable unicode_isalnum : char -> bool.

(** [advance w st st']: [st'] is [st] moved over the characters [w], with
    group 1 untouched. *)
Definition advance (w : str) (st st' : re.state) : Prop :=
  re.after st = w ++ re.after st' /\
  re.before st' = rev w ++ re.before st /\
  re.captured st' = re.captured st.

(** Every character of [w] is in the set. *)
Definition all_in (cs : re.charset) (w : str) : Prop :=
  Forall (fun c => re.in_set unicode_isalnum cs c = true) w.

(** [denotes r st st']: the pattern [r] can take the matcher from [st] to
    [st'], whatever the order in which the matcher tries things. *)
Fixpoint denotes (r : re.regex) (st st' : re.state) : Prop :=
  match r with
  | re.Empty => st' = st
  | re.Boundary => re.at_boundary unicode_isalnum st = true /\ st' = st
  | re.One cs => exists c, all_in cs [c] /\ advance [c] st st'
  | re.Star cs => exists w, all_in cs w /\ advance w st st'
  | re.Plus cs => exists w, w <> [] /\ all_in cs w /\ advance w st st'
  | re.Seq r1 r2 => exists mid, denotes r1 st mid /\ denotes r2 mid st'
  | re.Alt r1 r2 => denotes r1 st st' \/ denotes r2 st st'
  | re.Group r1 =>
      exists st1,
        denotes r1 st st1 /\
        st' = re.State (re.before st1) (re.after st1)
                (Some (rev (firstn (re.position st1 - re.position st)
                                   (re.before st1))))
  end.

(** What the function pattern asks for before the name it captures: the
    keyword and whitespace, or an identifier, optional whitespace and an
    opening parenthesis. *)
Definition function_lead (lead : str) : Prop :=
  (exists ws, lead = txt "function" ++ ws /\ ws <> [] /\ all_in re.Space ws)
  \/
  (exists c w ws,
     lead = c :: w ++ ws ++ txt "(" /\
     all_in (re.Union (re.Range (ch "a") (ch "z"))
               (re.Union (re.Range (ch "A") (ch "Z")) (re.Lit (ch "_")))) [c]
     /\ all_in re.Word w /\ all_in re.Space ws).

End Denotation.

(** A character database without letters or digits beyond ASCII. *)
Definition ascii_only : char -> bool := fun _ => false.

(** A parser that answers every text with [nested_example], and one that
    refuses every text. *)
Definition nested_parser : str -> exception + ast.node :=
  fun _ => inr nested_example.

Definition refusing_parser : str -> exception + ast.node :=
  fun _ => inl SyntaxError.

(** The records and the reads of the main loop on [small_tree], when every
    file holds [nested_text]. *)
Definition small_records : list file_info :=
  [FileInfo (txt "./a.py") [txt "A"] [txt "g"; txt "f"] too_short;
   FileInfo (txt "./src/b.js") [txt "A"] [] too_short].

Definition small_reads : list effect :=
  [Read (txt "./a.py"); Read (txt "./src/b.js")].

(** The text of group 1 of a match, as [re.findall] lists it. *)
Definition group_text (m : re.match_object) : str :=
  match re.group1 m with
  | Some g => g
  | None => []
  end.

(** [located content m]: the match [m] covers [content] from the offset
    [m_start] to the offset [m_end], and the text of its group lies in the
    part covered. *)
Definition located (content : str) (m : re.match_object) : Prop :=
  exists pre a b post,
    content = pre ++ (a ++ group_text m ++ b) ++ post /\
    length pre = re.m_start m /\
    re.m_end m = re.m_start m + length (a ++ group_text m ++ b).

(** The names of the nodes of one class, level by level from the root,
    each level from left to right as the children are listed. *)
Definition names_by_level (cls : ast.node_class) (tree : ast.node)
  : list str :=
  flat_map
    (fun d => map ast.name
                (filter (fun n => ast.isinstance n cls) (ast.level d tree)))
    (seq 0 (ast.height tree)).

(** A definition of a function, with [def] or with [async def]. *)
Definition function_definition (n : ast.node) : Prop :=
  ast.kind n = ast.FunctionDef \/ ast.kind n = ast.AsyncFunctionDef.

(** The text
<<
async def fetch():
    pass
class C:
    async def m(self):
        pass
    def n(self):
        pass
>>
    and the tree [ast.parse] builds for it. *)
Definition async_text : str :=
  txt "async def fetch():" ++ [LF] ++ txt "    pass" ++ [LF]
  ++ txt "class C:" ++ [LF] ++ txt "    async def m(self):" ++ [LF]
  ++ txt "        pass" ++ [LF] ++ txt "    def n(self):" ++ [LF]
  ++ txt "        pass" ++ [LF].

Definition async_example : ast.node :=
  ast.Node ast.Mod [] 0
    [ ast.Node ast.AsyncFunctionDef (txt "fetch") 1
        [ ast.Node ast.Other [] 0 [];
          ast.Node ast.Other [] 2 [] ];
      ast.Node ast.ClassDef (txt "C") 3
        [ ast.Node ast.AsyncFunctionDef (txt "m") 4
            [ ast.Node ast.Other [] 0 [ast.Node ast.Other [] 4 []];
              ast.Node ast.Other [] 5 [] ];
          ast.Node ast.FunctionDef (txt "n") 6
            [ ast.Node ast.Other [] 0 [ast.Node ast.Other [] 6 []];
              ast.Node ast.Other [] 7 [] ] ] ].

Definition async_parser : str -> exception + ast.node :=
  fun _ => inr async_example.

Definition async_disk : environment :=
  Environment (fun _ => inr async_text) (fun _ => inl ServiceError)
              (fun _ => None) (fun _ _ => None) (fun _ => None).

(** A tree with one file whose name is not valid UTF-8: the byte [FF]
    reaches the program as the surrogate [U+DCFF]. *)
Definition surrogate_tree : os.dir :=
  os.Dir [[0xDCFF%N] ++ txt ".js"] [].

(* ===================================================================== *)
(** * Properties                                                          *)
(* ===================================================================== *)

(** ** The summarizer adapter *)

(** C3. A text with fewer than 50 whitespace-delimited tokens is answered
    with the fixed sentinel, whatever the environment, and the run sends
    nothing to the summarizer (it has no effect at all). *)
Theorem short_text_gets_sentinel (env : environment) (T : str) :
  length (py.split T) < 50 ->
  run env (generate_ai_summary T) = (inr too_short, []) /\
  calls (snd (run env (generate_ai_summary T))) = [] /\
  too_short = txt "Code is too short for meaningful summarization.".
Proof.
  intros H. unfold generate_ai_summary.
  apply Nat.ltb_lt in H. rewrite H. simpl. repeat split.
Qed.

(** C4. For a text of at least 50 tokens and more than 1024 characters,
    the run sends exactly one request; its text is the first 1024
    characters of the input (with the three fixed parameters), and any
    other long-enough text with the same first 1024 characters runs the
    same way: what lies beyond them has no influence. *)
Theorem long_text_is_truncated (env : environment) (T : str) :
  50 <= length (py.split T) ->
  1024 < length T ->
  calls (snd (run env (generate_ai_summary T)))
    = [Request (firstn 1024 T) 100 30 false] /\
  length (firstn 1024 T) = 1024 /\
  (forall T', 50 <= length (py.split T') ->
              firstn 1024 T' = firstn 1024 T ->
              run env (generate_ai_summary T') = run env (generate_ai_summary T)).
Proof.
  intros Htok Hlen.
  assert (Hrun : forall U, 50 <= length (py.split U) ->
            generate_ai_summary U =
            Call_summarizer (Request (firstn 1024 U) 100 30 false)
              (fun summary =>
                 match summary with
                 | [] => Raise IndexError
                 | d :: _ => match dict_get d (txt "summary_text") with
                             | inl e => Raise e
                             | inr s => Ret s
                             end
                 end)).
  { intros U HU. unfold generate_ai_summary.
    destruct (Nat.ltb_spec (length (py.split U)) 50); [lia | reflexivity]. }
  split; [| split].
  - rewrite (Hrun T Htok). simpl.
    destruct (summarizer env _) as [e | [| d resp]]; simpl; try reflexivity.
    destruct (dict_get d _); reflexivity.
  - apply firstn_length_le. lia.
  - intros T' Htok' Heq. rewrite (Hrun T' Htok'), (Hrun T Htok), Heq.
    reflexivity.
Qed.

(** ** Search *)

(** A loop that appends [g x] for the elements that pass [p] builds the
    filtered list, in order, behind what was there before. *)
Lemma append_loop {A B} (p : A -> bool) (g : A -> B) (l : list A) :
  forall acc,
    fold_left (fun acc x => if p x then acc ++ [g x] else acc) l acc
    = acc ++ map g (filter p l).
Proof.
  induction l as [| x l IH]; intros acc; simpl.
  - now rewrite app_nil_r.
  - rewrite IH. destruct (p x); simpl; [| reflexivity].
    now rewrite <- app_assoc.
Qed.

Lemma str_eqb_eq (a b : str) : py.str_eqb a b = true <-> a = b.
Proof.
  revert b. induction a as [| x a IH]; intros [| y b]; simpl;
    try (split; [discriminate | discriminate]); [tauto |].
  rewrite andb_true_iff, N.eqb_eq, IH. split.
  - intros [-> ->]. reflexivity.
  - intros H. injection H as -> ->. split; reflexivity.
Qed.

Lemma contains_In (l : list str) (x : str) :
  py.contains l x = true <-> In x l.
Proof.
  induction l as [| y l IH]; simpl.
  - split; [discriminate | tauto].
  - rewrite orb_true_iff, str_eqb_eq, IH. split; intros [H | H]; auto.
Qed.

Lemma mentions_spec (term : str) (item : file_info) :
  mentions term item = true <->
  In term (classes item) \/ In term (functions item).
Proof.
  unfold mentions. now rewrite orb_true_iff, !contains_In.
Qed.

Lemma search_codebase_filter (code_info : list file_info) (term : str) :
  search_codebase code_info term
  = map file (filter (mentions term) code_info).
Proof.
  unfold search_codebase.
  exact (append_loop (mentions term) file code_info []).
Qed.

(** C7. The search returns the paths of exactly the records that have the
    term, as an equal string, among their classes or their functions; the
    paths come in the order of the records; and the result is the empty
    list, not a failure, exactly when no record has the term. *)
Theorem search_returns_exact_matches (code_info : list file_info) (term : str) :
  search_codebase code_info term
    = map file (filter (mentions term) code_info) /\
  (forall item, mentions term item = true <->
                In term (classes item) \/ In term (functions item)) /\
  (search_codebase code_info term = [] <->
   forall item, In item code_info ->
                ~ (In term (classes item) \/ In term (functions item))).
Proof.
  split; [apply search_codebase_filter | split; [apply mentions_spec |]].
  rewrite search_codebase_filter. split.
  - intros Hnil item Hin Hm. apply mentions_spec in Hm.
    assert (Hf : In item (filter (mentions term) code_info))
      by (apply filter_In; auto).
    apply (in_map file) in Hf. rewrite Hnil in Hf. exact Hf.
  - intros Hnone. induction code_info as [| item l IH]; [reflexivity |].
    simpl. destruct (mentions term item) eqn:E.
    + exfalso. apply (Hnone item); [now left | now apply mentions_spec].
    + apply IH. intros i Hi. apply Hnone. now right.
Qed.

(** C10. A record that has the term contributes its path exactly once,
    between the results of the records before it and those of the records
    after it, however often the term occurs in its classes and functions. *)
Theorem search_lists_a_record_once
        (l1 l2 : list file_info) (item : file_info) (term : str) :
  In term (classes item) \/ In term (functions item) ->
  search_codebase (l1 ++ item :: l2) term
  = search_codebase l1 term ++ [file item] ++ search_codebase l2 term.
Proof.
  intros H. apply mentions_spec in H.
  rewrite !search_codebase_filter, filter_app, map_app. simpl.
  now rewrite H.
Qed.

(** ** Pattern-based extraction *)

Section Matching.

Variable unicode_isalnum : char -> bool.

(** Whatever the rest of the pattern accepts lies at or after the place
    where a repetition started. *)
Lemma repeat_set_advances (p : char -> bool) (aft : str) :
  forall bef g k res,
    re.repeat_set p bef aft g k = Some res ->
    exists st', k st' = Some res /\ length bef <= re.position st'.
Proof.
  induction aft as [| c aft IH]; simpl; intros bef g k res H.
  - exists (re.State bef [] g). split; [exact H | apply Nat.le_refl].
  - destruct (p c).
    + destruct (re.repeat_set p (c :: bef) aft g k) eqn:E.
      * injection H as <-. apply IH in E as (st' & Hk & Hpos).
        exists st'. split; [exact Hk | simpl in Hpos; lia].
      * exists (re.State bef (c :: aft) g). split; [exact H | apply Nat.le_refl].
    + exists (re.State bef (c :: aft) g). split; [exact H | apply Nat.le_refl].
Qed.

(** The matcher only moves forward. *)
Lemma matches_advances (r : re.regex) :
  forall st k res,
    re.matches unicode_isalnum r st k = Some res ->
    exists st', k st' = Some res /\ re.position st <= re.position st'.
Proof.
  induction r as [| | cs | cs | cs | r1 IH1 r2 IH2 | r1 IH1 r2 IH2 | r IH];
    simpl; intros st k res H.
  - exists st. auto.
  - destruct (re.at_boundary unicode_isalnum st); [| discriminate].
    exists st. auto.
  - destruct (re.after st) as [| c aft]; [discriminate |].
    destruct (re.in_set unicode_isalnum cs c); [| discriminate].
    eexists. split; [exact H |]. unfold re.position. simpl. lia.
  - apply repeat_set_advances in H. exact H.
  - destruct (re.after st) as [| c aft]; [discriminate |].
    destruct (re.in_set unicode_isalnum cs c); [| discriminate].
    apply repeat_set_advances in H as (st' & Hk & Hpos).
    exists st'. split; [exact Hk |]. unfold re.position in *. simpl in Hpos. lia.
  - apply IH1 in H as (st1 & H1 & Hp1).
    apply IH2 in H1 as (st2 & H2 & Hp2).
    exists st2. split; [exact H2 | lia].
  - destruct (re.matches unicode_isalnum r1 st k) eqn:E.
    + injection H as <-. apply IH1 in E. exact E.
    + apply IH2 in H. exact H.
  - apply IH in H as (st1 & H1 & Hp1).
    eexists. split; [exact H1 |]. exact Hp1.
Qed.

(** A match starts where it was tried and does not end before; when it
    had to advance it is not empty. *)
Lemma attempt_span (r : re.regex) (bef aft : str) (ma : bool) m :
  re.attempt unicode_isalnum r bef aft ma = Some m ->
  re.m_start m = length bef /\
  length bef <= re.m_end m /\
  (ma = true -> length bef < re.m_end m).
Proof.
  unfold re.attempt.
  destruct (re.matches _ _ _ _) as [st' |] eqn:E; [| discriminate].
  intros H. injection H as <-. simpl.
  apply matches_advances in E as (st1 & Hk & Hpos).
  unfold re.position in *. simpl in Hpos.
  destruct (ma && (length (re.before st1) =? length bef)) eqn:Hma;
    [discriminate |].
  injection Hk as <-.
  split; [reflexivity | split; [exact Hpos |]].
  intros ->. simpl in Hma. apply Nat.eqb_neq in Hma. lia.
Qed.

Lemma ordered_from_nil lo : ordered_from lo [].
Proof. split; constructor. Qed.

Lemma ordered_from_weaken lo lo' l :
  lo <= lo' -> ordered_from lo' l -> ordered_from lo l.
Proof.
  intros Hle [HF HS]. split; [| exact HS].
  eapply Forall_impl; [| exact HF]. simpl. intros m [H1 H2]. lia.
Qed.

Lemma ordered_from_cons lo m l :
  lo <= re.m_start m -> re.m_start m <= re.m_end m ->
  ordered_from (re.m_end m) l -> ordered_from lo (m :: l).
Proof.
  intros H1 H2 [HF HS]. split.
  - constructor; [lia |].
    eapply Forall_impl; [| exact HF]. simpl. intros x [Hx1 Hx2]. lia.
  - constructor; [exact HS |].
    eapply Forall_impl; [| exact HF]. simpl. intros x [Hx1 Hx2]. lia.
Qed.

Lemma scan_ordered (r : re.regex) (aft : str) :
  forall bef skip,
    ordered_from (length bef + skip) (re.scan unicode_isalnum r bef aft skip).
Proof.
  induction aft as [| c aft IH]; intros bef skip.
  - destruct skip as [| n]; simpl; [| apply ordered_from_nil].
    destruct (re.attempt _ r bef [] false) as [m |] eqn:E;
      [| apply ordered_from_nil].
    apply attempt_span in E as (Hs & He & _).
    destruct (re.m_end m =? re.m_start m) eqn:Hempty.
    + apply Nat.eqb_eq in Hempty.
      apply ordered_from_cons; [lia | lia |].
      destruct (re.attempt _ r bef [] true) as [m' |] eqn:E';
        [| apply ordered_from_nil].
      apply attempt_span in E' as (Hs' & He' & _).
      apply ordered_from_cons; [lia | lia | apply ordered_from_nil].
    + apply ordered_from_cons; [lia | lia | apply ordered_from_nil].
  - destruct skip as [| n]; simpl.
    + destruct (re.attempt _ r bef (c :: aft) false) as [m |] eqn:E.
      * apply attempt_span in E as (Hs & He & _).
        destruct (re.m_end m =? re.m_start m) eqn:Hempty.
        -- apply Nat.eqb_eq in Hempty.
           apply ordered_from_cons; [lia | lia |].
           destruct (re.attempt _ r bef (c :: aft) true) as [m' |] eqn:E'.
           ++ apply attempt_span in E' as (Hs' & He' & Hadv).
              specialize (Hadv eq_refl).
              apply ordered_from_cons; [lia | lia |].
              eapply ordered_from_weaken; [| apply IH]. simpl. lia.
           ++ eapply ordered_from_weaken; [| apply IH]. simpl. lia.
        -- apply Nat.eqb_neq in Hempty.
           apply ordered_from_cons; [lia | lia |].
           eapply ordered_from_weaken; [| apply IH]. simpl. lia.
      * eapply ordered_from_weaken; [| apply IH]. simpl. lia.
    + eapply ordered_from_weaken; [| apply IH]. simpl. lia.
Qed.

End Matching.

(** C1. On the example of the specification the function pattern finds
    nothing: its second alternative asks for an identifier, a parenthesis,
    a second identifier and a second parenthesis, and captures the second
    identifier; neither [area()] nor [compute(x)] has that shape. The class
    pattern finds [Shape]. *)
Theorem function_pattern_on_shape (unicode_isalnum : char -> bool) :
  re.findall unicode_isalnum function_pattern shape_cpp = [] /\
  re.findall unicode_isalnum class_pattern shape_cpp = [txt "Shape"].
Proof. split; vm_compute; reflexivity. Qed.

(** What the function pattern does capture: the name after [function],
    and the identifier between two opening parentheses. *)
Example function_pattern_captures (unicode_isalnum : char -> bool) :
  re.findall unicode_isalnum function_pattern (txt "function greet(){}")
    = [txt "greet"] /\
  re.findall unicode_isalnum function_pattern (txt "foo(bar(1))")
    = [txt "bar"] /\
  re.findall unicode_isalnum function_pattern (txt "int area() { }") = [].
Proof. repeat split; vm_compute; reflexivity. Qed.

(** ** Grammar-based extraction *)

Lemma forest_size_app (a b : list ast.node) :
  ast.forest_size (a ++ b) = ast.forest_size a + ast.forest_size b.
Proof.
  induction a as [| n a IH]; simpl; [reflexivity | rewrite IH; lia].
Qed.

(** The queue is served level by level: the nodes waiting come out first,
    then the walk goes on with what was behind them and their children. *)
Lemma walk_queue_app (a : list ast.node) :
  forall b,
    ast.walk_queue (a ++ b)
    = a ++ ast.walk_queue (b ++ flat_map ast.iter_child_nodes a).
Proof.
  induction a as [| n a IH]; intros b; simpl.
  - now rewrite app_nil_r.
  - rewrite ast.walk_queue_equation_2. f_equal.
    rewrite <- app_assoc, IH, <- app_assoc. reflexivity.
Qed.

Lemma height_children (n : ast.node) :
  ast.height n = S (forest_height (ast.iter_child_nodes n)).
Proof.
  destruct n as [k x l cs]. reflexivity.
Qed.

Lemma forest_height_app (a b : list ast.node) :
  forest_height (a ++ b) = Nat.max (forest_height a) (forest_height b).
Proof.
  induction a as [| n a IH]; simpl; [reflexivity | rewrite IH; lia].
Qed.

Lemma forest_height_children (q : list ast.node) (h : nat) :
  forest_height q <= S h ->
  forest_height (flat_map ast.iter_child_nodes q) <= h.
Proof.
  induction q as [| n q IH]; simpl; intros H; [lia |].
  rewrite forest_height_app. rewrite (height_children n) in H. lia.
Qed.

Lemma flat_map_singleton {A} (l : list A) : flat_map (fun x => [x]) l = l.
Proof. induction l as [| x l IH]; simpl; [reflexivity | now rewrite IH]. Qed.

Lemma flat_map_flat_map {A B C} (f : A -> list B) (g : B -> list C) l :
  flat_map g (flat_map f l) = flat_map (fun x => flat_map g (f x)) l.
Proof.
  induction l as [| x l IH]; simpl; [reflexivity |].
  now rewrite flat_map_app, IH.
Qed.

Lemma flat_map_seq_shift {A} (f : nat -> list A) (h : nat) :
  flat_map f (seq 1 h) = flat_map (fun d => f (S d)) (seq 0 h).
Proof.
  rewrite <- seq_shift. induction (seq 0 h) as [| d l IH]; simpl;
    [reflexivity | now rewrite IH].
Qed.

(** Breadth first: the walk of a queue lists it level after level. *)
Lemma walk_queue_levels (h : nat) :
  forall q,
    forest_height q <= h ->
    ast.walk_queue q
    = flat_map (fun d => flat_map (ast.level d) q) (seq 0 h).
Proof.
  induction h as [| h IH]; intros q Hq.
  - destruct q as [| n q]; [reflexivity |].
    simpl in Hq. rewrite (height_children n) in Hq. lia.
  - rewrite <- (app_nil_r q) at 1. rewrite walk_queue_app. simpl app.
    rewrite (IH _ (forest_height_children q Hq)).
    change (seq 0 (S h)) with (0 :: seq 1 h).
    cbn [flat_map]. cbn [ast.level]. rewrite flat_map_singleton. f_equal.
    rewrite flat_map_seq_shift. apply flat_map_ext. intros d.
    cbn [ast.level]. apply flat_map_flat_map.
Qed.

Lemma walk_levels (tree : ast.node) :
  ast.walk tree
  = flat_map (fun d => ast.level d tree) (seq 0 (ast.height tree)).
Proof.
  unfold ast.walk. rewrite (walk_queue_levels (h := ast.height tree)).
  - apply flat_map_ext. intros d. simpl. apply app_nil_r.
  - simpl. lia.
Qed.

Lemma map_filter_flat_map {A B C} (g : B -> C) (p : B -> bool)
      (f : A -> list B) (l : list A) :
  map g (filter p (flat_map f l))
  = flat_map (fun x => map g (filter p (f x))) l.
Proof.
  induction l as [| x l IH]; simpl; [reflexivity |].
  now rewrite filter_app, map_app, IH.
Qed.

(** The walk lists the names of a class of nodes level by level. *)
Lemma names_of_by_level (cls : ast.node_class) (tree : ast.node) :
  names_of cls tree = names_by_level cls tree.
Proof.
  unfold names_of, names_by_level. rewrite walk_levels.
  apply map_filter_flat_map.
Qed.

(** The grammar-based variant does not follow the text: in
    [nested_example] the method [f] of line 2 is listed after the function
    [g] of line 4, because [g] is less deeply nested. *)
Lemma grammar_based_order_is_not_textual :
  names_of ast.FunctionDef nested_example = [txt "g"; txt "f"] /\
  names_in_text_order ast.FunctionDef nested_example = [txt "f"; txt "g"] /\
  map ast.lineno
      (filter (fun n => ast.isinstance n ast.FunctionDef)
              (ast.walk nested_example)) = [4; 2] /\
  names_of ast.FunctionDef nested_example
    <> names_in_text_order ast.FunctionDef nested_example.
Proof.
  repeat split; try (vm_compute; reflexivity).
  vm_compute. discriminate.
Qed.

(** The walk of a queue meets exactly the nodes of its trees. *)
Lemma walk_queue_within (q : list ast.node) :
  forall x, In x (ast.walk_queue q) <-> exists t, In t q /\ ast.within x t.
Proof.
  funelim (ast.walk_queue q); intros x.
  - simpl. split; [tauto | intros (t & [] & _)].
  - simpl.
    match goal with
    | IH : forall y, In y (ast.walk_queue _) <-> _ |- _ => rewrite IH
    end.
    split.
    + intros [<- | (t & Hin & Hw)].
      * exists n. split; [now left | constructor].
      * apply in_app_or in Hin as [Hin | Hin].
        -- exists t. split; [now right | exact Hw].
        -- exists n. split; [now left |].
           eapply ast.within_child; eassumption.
    + intros (t & [<- | Hin] & Hw).
      * inversion Hw as [| t' c Hc Hwc]; subst.
        -- now left.
        -- right. exists c. split; [apply in_or_app; now right | exact Hwc].
      * right. exists t. split; [apply in_or_app; now left | exact Hw].
Qed.

Lemma walk_within (n tree : ast.node) :
  In n (ast.walk tree) <-> ast.within n tree.
Proof.
  unfold ast.walk. rewrite walk_queue_within. split.
  - intros (t & [<- | []] & Hw). exact Hw.
  - intros Hw. exists tree. split; [now left | exact Hw].
Qed.

Lemma class_eqb_eq (a b : ast.node_class) :
  ast.class_eqb a b = true <-> a = b.
Proof. destruct a, b; simpl; split; congruence. Qed.

(** The names collected for a class of nodes are the names of the nodes of
    that class anywhere in the tree. *)
Lemma names_of_spec (cls : ast.node_class) (tree : ast.node) (x : str) :
  In x (names_of cls tree) <->
  exists n, ast.within n tree /\ ast.kind n = cls /\ ast.name n = x.
Proof.
  unfold names_of. rewrite in_map_iff. split.
  - intros (n & Hname & Hin). apply filter_In in Hin as [Hin Hk].
    exists n. repeat split; [now apply walk_within | | exact Hname].
    now apply class_eqb_eq.
  - intros (n & Hw & Hk & Hname). exists n. split; [exact Hname |].
    apply filter_In. split; [now apply walk_within |].
    now apply class_eqb_eq.
Qed.

(** ** Running programs *)

Lemma run_bind {A B} (env : environment) (p : prog A) (f : A -> prog B) :
  run env (bind p f)
  = match run env p with
    | (inl e, t) => (inl e, t)
    | (inr a, t) => let (r, t') := run env (f a) in (r, t ++ t')
    end.
Proof.
  induction p as [a | e | path k IH | req k IH | path content k IH | line k IH];
    simpl.
  - destruct (run env (f a)); reflexivity.
  - reflexivity.
  - destruct (disk env path) as [e | s]; [reflexivity |].
    rewrite IH. destruct (run env (k s)) as [[e | a] t]; [reflexivity |].
    destruct (run env (f a)); reflexivity.
  - destruct (summarizer env req) as [e | resp]; [reflexivity |].
    rewrite IH. destruct (run env (k resp)) as [[e | a] t]; [reflexivity |].
    destruct (run env (f a)); reflexivity.
  - destruct (create env path); [reflexivity |].
    destruct (write_all (storage env path) [] content) as [[e | u] written];
      [reflexivity |].
    rewrite IH. destruct (run env k) as [[e | a] t]; [reflexivity |].
    destruct (run env (f a)); reflexivity.
  - destruct (console env line); [reflexivity |].
    rewrite IH. destruct (run env k) as [[e | a] t]; [reflexivity |].
    destruct (run env (f a)); reflexivity.
Qed.

(** C2, as amended. When the file holds valid Python text [T] with syntax
    tree [tree], the run of the grammar-based extraction ends as the
    summary of [T] ends, and on success its record lists as classes
    exactly the names of the class definitions anywhere in [tree], and as
    functions exactly the names of the function definitions written with
    [def] (the [FunctionDef] nodes, methods and nested functions
    included) anywhere in [tree], at any depth. Definitions written with
    [async def] are nodes of another class and are not listed. *)
Theorem grammar_extraction_finds_every_definition
        (ast_parse : str -> exception + ast.node) (env : environment)
        (file_path T : str) (tree : ast.node) :
  disk env file_path = inr T ->
  ast_parse T = inr tree ->
  exists cs fs,
    (forall x, In x cs <->
       exists n, ast.within n tree /\ ast.kind n = ast.ClassDef
                 /\ ast.name n = x) /\
    (forall x, In x fs <->
       exists n, ast.within n tree /\ ast.kind n = ast.FunctionDef
                 /\ ast.name n = x) /\
    fst (run env (extract_python_info ast_parse file_path))
    = match fst (run env (generate_ai_summary T)) with
      | inl e => inl e
      | inr s => inr (FileInfo file_path cs fs s)
      end.
Proof.
  intros Hread Hparse.
  exists (names_of ast.ClassDef tree), (names_of ast.FunctionDef tree).
  split; [intros x; apply names_of_spec |].
  split; [intros x; apply names_of_spec |].
  unfold extract_python_info. simpl. rewrite Hread, Hparse.
  rewrite run_bind.
  destruct (run env (generate_ai_summary T)) as [[e | s] t]; reflexivity.
Qed.

(** The claim as first stated fails on [async_text]: the tree defines the
    functions [fetch], [m] and [n], and the record lists [n] alone, since
    [fetch] and [m] are written with [async def]. *)
Lemma async_definitions_are_not_listed :
  run async_disk (extract_python_info async_parser (txt "./a.py"))
    = (inr (FileInfo (txt "./a.py") [txt "C"] [txt "n"] too_short),
       [Read (txt "./a.py")]) /\
  (exists n, ast.within n async_example /\ function_definition n /\
             ast.name n = txt "fetch") /\
  ~ In (txt "fetch") [txt "n"] /\
  ~ (forall x,
       In x (names_of ast.FunctionDef async_example) <->
       exists n, ast.within n async_example /\ function_definition n /\
                 ast.name n = x).
Proof.
  assert (Hdef : exists n, ast.within n async_example /\
                           function_definition n /\
                           ast.name n = txt "fetch").
  { exists (ast.Node ast.AsyncFunctionDef (txt "fetch") 1
              [ ast.Node ast.Other [] 0 [];
                ast.Node ast.Other [] 2 [] ]).
    split; [| split; [now right | reflexivity]].
    eapply ast.within_child; [| constructor]. simpl. now left. }
  assert (Hnot : ~ In (txt "fetch") [txt "n"]).
  { intros [H | []]. revert H. vm_compute. discriminate. }
  split; [vm_compute; reflexivity | split; [exact Hdef | split; [exact Hnot |]]].
  intros H. apply Hnot.
  assert (Hn : names_of ast.FunctionDef async_example = [txt "n"])
    by (vm_compute; reflexivity).
  rewrite <- Hn. apply H. exact Hdef.
Qed.

(** ** Discovery *)

Lemma endswith_spec (s suffix : str) :
  py.endswith s suffix = true <-> exists stem, s = stem ++ suffix.
Proof.
  unfold py.endswith. rewrite andb_true_iff, Nat.leb_le, str_eqb_eq. split.
  - intros [Hle Heq].
    exists (firstn (length s - length suffix) s).
    rewrite <- Heq at 2. symmetry. apply firstn_skipn.
  - intros [stem ->]. rewrite length_app. split; [lia |].
    replace (length stem + length suffix - length suffix) with (length stem)
      by lia.
    rewrite skipn_app, Nat.sub_diag, skipn_all. reflexivity.
Qed.

Lemma endswith_any_spec (extensions : list str) (name : str) :
  py.endswith_any name extensions = true <-> has_extension extensions name.
Proof.
  unfold py.endswith_any, has_extension. rewrite existsb_exists.
  split; intros (ext & Hin & H); exists ext; split; auto;
    now apply endswith_spec.
Qed.

(** A loop that appends a list per element builds their concatenation. *)
Lemma extend_loop {A B} (h : A -> list B) (l : list A) :
  forall acc, fold_left (fun acc x => acc ++ h x) l acc = acc ++ flat_map h l.
Proof.
  induction l as [| x l IH]; intros acc; simpl.
  - now rewrite app_nil_r.
  - now rewrite IH, app_assoc.
Qed.

Lemma walk_subdirs (top : str) (subdirs : list (str * os.dir)) {B}
      (h : str * list str * list str -> list B) :
  flat_map h
    ((fix each (l : list (str * os.dir)) :=
        match l with
        | [] => []
        | (dirname, sub) :: l' => os.walk (py.join top dirname) sub ++ each l'
        end) subdirs)
  = flat_map (fun e => flat_map h (os.walk (py.join top (fst e)) (snd e)))
             subdirs.
Proof.
  induction subdirs as [| [dirname sub] l IH]; simpl; [reflexivity |].
  now rewrite flat_map_app, IH.
Qed.

Lemma dir_induction (P : os.dir -> Prop) :
  (forall files subdirs,
      Forall (fun e => P (snd e)) subdirs -> P (os.Dir files subdirs)) ->
  forall d, P d.
Proof.
  intros step. fix IH 1. intros [files subdirs]. apply step.
  induction subdirs as [| [dirname sub] l IHl]; constructor.
  - apply IH.
  - exact IHl.
Qed.

Lemma discovery_loop (extensions : list str)
      (l : list (str * list str * list str)) :
  forall acc,
    fold_left
      (fun code_files '(root, _, files) =>
         fold_left
           (fun code_files file =>
              if existsb (fun ext => py.endswith file ext) extensions
              then code_files ++ [py.join root file]
              else code_files)
           files code_files)
      l acc
    = acc ++ flat_map (fun '(root, _, files) =>
                         map (py.join root) (kept extensions files)) l.
Proof.
  induction l as [| [[root dirs] files] l IH]; intros acc; simpl.
  - now rewrite app_nil_r.
  - rewrite IH, app_assoc. f_equal.
    exact (append_loop (fun file => py.endswith_any file extensions)
                       (py.join root) files acc).
Qed.

Lemma get_code_files_found (fs : os.dir) (directory : str)
      (extensions : list str) :
  get_code_files fs directory extensions = found extensions directory fs.
Proof.
  unfold get_code_files. rewrite discovery_loop. simpl app.
  revert directory. induction fs as [files subdirs IH] using dir_induction.
  intros top. cbn [os.walk flat_map found]. f_equal.
  rewrite walk_subdirs.
  induction IH as [| e l He _ IHl]; simpl; [reflexivity |].
  now rewrite He, IHl.
Qed.

Lemma found_spec (extensions : list str) (d : os.dir) :
  forall top p,
    In p (found extensions top d) <->
    exists ds name,
      os.holds d ds name /\ has_extension extensions name /\
      p = os.path_of top ds name.
Proof.
  induction d as [files subdirs IH] using dir_induction.
  intros top p. cbn [found]. rewrite in_app_iff, in_map_iff, in_flat_map.
  rewrite Forall_forall in IH. split.
  - intros [(name & <- & Hin) | ([dirname sub] & Hin & Hp)].
    + apply filter_In in Hin as [Hin Hext].
      exists [], name. split; [now constructor |].
      split; [now apply endswith_any_spec | reflexivity].
    + apply (IH _ Hin) in Hp as (ds & name & Hh & Hext & ->).
      exists (dirname :: ds), name.
      split; [econstructor; eassumption | split; [exact Hext | reflexivity]].
  - intros (ds & name & Hh & Hext & ->).
    inversion Hh as [fl sd nm Hin | fl sd dirname sub ds' nm Hin Hsub]; subst.
    + left. exists name. split; [reflexivity |].
      apply filter_In. split; [exact Hin | now apply endswith_any_spec].
    + right. exists (dirname, sub). split; [exact Hin |].
      apply (IH _ Hin). exists ds', name. auto.
Qed.

Lemma join_valid (top name : str) :
  os.valid_name name -> py.join top name = with_separator top ++ name.
Proof.
  intros [Hne Hslash]. unfold py.join, with_separator.
  destruct name as [| c name]; [congruence |].
  assert (Hc : N.eqb c (ch "/") = false).
  { apply N.eqb_neq. intros ->. apply Hslash. now left. }
  cbn [txt list_ascii_of_string map py.startswith]. 
  change (N_of_ascii "/") with (ch "/"). rewrite Hc. simpl andb.
  destruct top as [| t top]; [reflexivity |].
  destruct (py.endswith (t :: top) _); [reflexivity |].
  now rewrite <- app_assoc.
Qed.

Lemma valid_name_no_final_slash (prefix name : str) :
  os.valid_name name -> py.endswith (prefix ++ name) (txt "/") = false.
Proof.
  intros [Hne Hslash]. apply not_true_is_false. intros H.
  apply endswith_spec in H as [stem H].
  destruct (exists_last Hne) as (name' & c & ->).
  rewrite app_assoc in H. apply app_inj_tail in H as [_ ->].
  apply Hslash. apply in_or_app. right. now left.
Qed.

Lemma with_separator_join (top name : str) :
  os.valid_name name ->
  with_separator (py.join top name) = with_separator top ++ name ++ txt "/".
Proof.
  intros Hv. rewrite (join_valid top Hv). unfold with_separator at 1.
  rewrite (valid_name_no_final_slash _ Hv).
  destruct (with_separator top ++ name) eqn:E.
  - destruct Hv as [Hne _]. apply app_eq_nil in E as [_ E]. congruence.
  - now rewrite <- E, <- app_assoc.
Qed.

Lemma found_relative (extensions : list str) (d : os.dir) :
  os.well_formed d ->
  forall top,
    found extensions top d
    = map (app (with_separator top)) (relative extensions d).
Proof.
  induction d as [files subdirs IH] using dir_induction.
  intros Hwf top.
  inversion Hwf as [fl sd _ _ Hfiles Hdirs Hsubs]; subst.
  cbn [found relative]. rewrite map_app. f_equal.
  - unfold kept. apply map_ext_in. intros name Hin.
    apply filter_In in Hin as [Hin _]. apply join_valid.
    rewrite Forall_forall in Hfiles. now apply Hfiles.
  - clear Hwf Hfiles.
    induction subdirs as [| [dirname sub] l IHl]; [reflexivity |].
    inversion IH as [| ? ? He IH']; subst.
    inversion Hsubs as [| ? ? Hwe Hsubs']; subst.
    inversion Hdirs as [| ? ? Hvn Hdirs']; subst.
    cbn [flat_map fst snd] in *. rewrite map_app, (IHl IH' Hdirs' Hsubs').
    f_equal. rewrite (He Hwe), map_map, (with_separator_join top Hvn).
    apply map_ext. intros r. now rewrite <- !app_assoc.
Qed.

Lemma first_component_below (n r : str) :
  ~ In (ch "/") n -> first_component (n ++ txt "/" ++ r) = n.
Proof.
  induction n as [| c n IH]; intros H; [reflexivity |].
  simpl. destruct (N.eqb_spec c (ch "/")) as [-> | _].
  - exfalso. apply H. now left.
  - f_equal. apply IH. intros Hin. apply H. now right.
Qed.

Lemma NoDup_map_injective {A B} (f : A -> B) (l : list A) :
  (forall x y, f x = f y -> x = y) -> NoDup l -> NoDup (map f l).
Proof.
  intros Hinj H. induction H as [| x l Hx _ IH]; simpl; constructor; auto.
  intros Hin. apply in_map_iff in Hin as (y & Hy & Hin).
  apply Hinj in Hy. now subst.
Qed.

Lemma relative_NoDup (extensions : list str) (d : os.dir) :
  os.well_formed d -> NoDup (relative extensions d).
Proof.
  induction d as [files subdirs IH] using dir_induction.
  intros Hwf. inversion Hwf as [fl sd Hnf Hnd Hfiles Hdirs Hsubs]; subst.
  cbn [relative]. apply NoDup_app.
  - now apply NoDup_filter.
  - clear Hwf Hfiles Hnf.
    induction subdirs as [| [dirname sub] l IHl]; [constructor |].
    inversion IH as [| ? ? He IH']; subst.
    inversion Hsubs as [| ? ? Hwe Hsubs']; subst.
    inversion Hdirs as [| ? ? Hvn Hdirs']; subst.
    inversion Hnd as [| ? ? Hfresh Hnd']; subst.
    cbn [flat_map fst snd] in *. apply NoDup_app.
    + apply NoDup_map_injective; [| now apply He].
      intros x y Hxy. now do 2 apply app_inv_head in Hxy.
    + now apply IHl.
    + intros p Hp Hp'. apply in_map_iff in Hp as (r & <- & _).
      apply in_flat_map in Hp' as ([dirname' sub'] & Hin' & Hp').
      apply in_map_iff in Hp' as (r' & Heq & _). cbn [fst snd] in Heq.
      apply (f_equal first_component) in Heq.
      rewrite Forall_forall in Hdirs'.
      assert (Hin'' : In dirname' (map fst l))
        by (apply in_map_iff; exists (dirname', sub'); auto).
      rewrite !first_component_below in Heq;
        [| apply Hvn | apply (Hdirs' _ Hin'')].
      subst. contradiction.
  - intros p Hp Hp'. apply filter_In in Hp as [Hp _].
    rewrite Forall_forall in Hfiles. destruct (Hfiles _ Hp) as [_ Hno].
    apply in_flat_map in Hp' as ([dirname sub] & _ & Hp').
    apply in_map_iff in Hp' as (r & <- & _). apply Hno.
    apply in_or_app. right. now left.
Qed.

(** C6. In a well-formed directory tree, [get_code_files] returns exactly
    the paths of the files, at any depth, whose name ends with one of the
    extensions (character for character), and no path twice. *)
Theorem discovery_is_exact
        (fs : os.dir) (directory : str) (extensions : list str) :
  os.well_formed fs ->
  (forall p,
     In p (get_code_files fs directory extensions) <->
     exists ds name,
       os.holds fs ds name /\ has_extension extensions name /\
       p = os.path_of directory ds name) /\
  NoDup (get_code_files fs directory extensions).
Proof.
  intros Hwf. rewrite get_code_files_found. split.
  - intros p. apply found_spec.
  - rewrite (found_relative extensions Hwf).
    apply NoDup_map_injective; [| now apply relative_NoDup].
    intros x y Hxy. now apply app_inv_head in Hxy.
Qed.

(** ** The main loop *)

Section MainLoop.

Variable unicode_isalnum : char -> bool.
Variable ast_parse : str -> exception + ast.node.
Variable env : environment.

Local Abbreviation strategy := (strategy unicode_isalnum ast_parse).

Lemma reads_app (t t' : list effect) : reads (t ++ t') = reads t ++ reads t'.
Proof.
  induction t as [| [] t IH]; simpl; congruence.
Qed.

Lemma summary_reads_nothing (content : str) :
  reads (snd (run env (generate_ai_summary content))) = [].
Proof.
  unfold generate_ai_summary.
  destruct (length (py.split content) <? 50); [reflexivity |].
  simpl. destruct (summarizer env _) as [e | [| d resp]]; try reflexivity.
  simpl. destruct (dict_get d _); reflexivity.
Qed.

(** Either strategy reads its file once and files the record under the
    path it was given. *)
Lemma strategy_record (path : str) info t :
  run env (strategy path) = (inr info, t) ->
  file info = path /\ reads t = [path].
Proof.
  unfold strategy, extract_python_info, extract_js_cpp_info.
  destruct (py.endswith path (txt ".py")); simpl;
    destruct (disk env path) as [e | content]; try discriminate.
  - destruct (ast_parse content) as [e | tree]; [discriminate |].
    rewrite run_bind.
    pose proof (summary_reads_nothing content) as Hr.
    destruct (run env (generate_ai_summary content)) as [[e | s] t0];
      [discriminate |].
    simpl. intros H. injection H as <- <-. simpl in *.
    rewrite app_nil_r, Hr. auto.
  - rewrite run_bind.
    pose proof (summary_reads_nothing content) as Hr.
    destruct (run env (generate_ai_summary content)) as [[e | s] t0];
      [discriminate |].
    simpl. intros H. injection H as <- <-. simpl in *.
    rewrite app_nil_r, Hr. auto.
Qed.

Lemma for_each_records (files : list str) :
  forall code_info t,
    run env (for_each strategy files) = (inr code_info, t) ->
    map file code_info = files /\ reads t = files.
Proof.
  induction files as [| f files IH]; intros code_info t; simpl.
  - intros H. injection H as <- <-. auto.
  - rewrite run_bind.
    destruct (run env (strategy f)) as [[e | info] t1] eqn:E1;
      [discriminate |].
    rewrite run_bind.
    destruct (run env (for_each strategy files)) as [[e | infos] t2] eqn:E2;
      [discriminate |].
    simpl. intros H. injection H as <- <-.
    destruct (strategy_record _ E1) as [Hf Hr].
    destruct (IH _ _ eq_refl) as [Hfs Hrs].
    simpl. rewrite !reads_app, Hf, Hr, Hfs, Hrs. simpl.
    now rewrite app_nil_r.
Qed.

(** On files that all carry one of the four extensions, the loop is the
    strategy run on each file in turn. *)
Lemma collect_for_each (files : list str) :
  Forall (fun f => py.endswith_any f default_extensions = true) files ->
  forall code_info,
    run env (collect unicode_isalnum ast_parse files code_info)
    = run env (rest <- for_each strategy files ;; Ret (code_info ++ rest)).
Proof.
  induction 1 as [| f files Hf _ IH]; intros code_info; simpl.
  - now rewrite app_nil_r.
  - assert (Hstep :
      run env (info <- strategy f ;;
               collect unicode_isalnum ast_parse files (code_info ++ [info]))
      = run env (rest <- (y <- strategy f ;;
                          ys <- for_each strategy files ;; Ret (y :: ys)) ;;
                 Ret (code_info ++ rest))).
    { rewrite !run_bind.
      destruct (run env (strategy f)) as [[e | info] t1]; [reflexivity |].
      rewrite IH, !run_bind.
      destruct (run env (for_each strategy files)) as [[e | infos] t2];
        simpl; rewrite ?app_nil_r, <- ?app_assoc; reflexivity. }
    rewrite <- Hstep. unfold strategy.
    destruct (py.endswith f (txt ".py")) eqn:Epy; [reflexivity |].
    unfold default_extensions, py.endswith_any in Hf. simpl in Hf.
    unfold ch in Hf.
    rewrite Epy in Hf. simpl in Hf.
    unfold py.endswith_any. simpl existsb. rewrite Hf. reflexivity.
Qed.

End MainLoop.

Lemma join_ends_with (a b : str) : exists prefix, py.join a b = prefix ++ b.
Proof.
  unfold py.join. destruct (py.startswith b _).
  - now exists [].
  - destruct (match a with [] => true | _ => py.endswith a (txt "/") end).
    + now exists a.
    + exists (a ++ txt "/"). now rewrite <- app_assoc.
Qed.

(** Every discovered path ends with one of the extensions asked for. *)
Lemma discovered_has_extension (fs : os.dir) (directory : str)
      (extensions : list str) :
  Forall (fun p => py.endswith_any p extensions = true)
         (get_code_files fs directory extensions).
Proof.
  apply Forall_forall. intros p Hp.
  rewrite get_code_files_found in Hp.
  apply found_spec in Hp as (ds & name & _ & (ext & Hin & stem & ->) & ->).
  apply endswith_any_spec. exists ext. split; [exact Hin |].
  unfold os.path_of.
  destruct (join_ends_with (fold_left py.join ds directory) (stem ++ ext))
    as [prefix ->].
  exists (prefix ++ stem). now rewrite app_assoc.
Qed.

(** C9. The loop of the main block runs, on each discovered file in
    discovery order, the one strategy its extension selects (grammar-based
    for a path ending in [.py], pattern-based otherwise) and stops at the
    first exception. A run that completes has read every discovered file
    exactly once and holds one record per discovered file, in discovery
    order, each under that file's path. *)
Theorem one_record_per_discovered_file
        (unicode_isalnum : char -> bool)
        (ast_parse : str -> exception + ast.node)
        (env : environment) (fs : os.dir) :
  let files := get_code_files fs (txt ".") default_extensions in
  run env (collect unicode_isalnum ast_parse files [])
    = run env (for_each (strategy unicode_isalnum ast_parse) files) /\
  (forall code_info t,
     run env (collect unicode_isalnum ast_parse files []) = (inr code_info, t) ->
     map file code_info = files /\ reads t = files /\
     length code_info = length files).
Proof.
  intros files.
  assert (Heq : run env (collect unicode_isalnum ast_parse files [])
                = run env (for_each (strategy unicode_isalnum ast_parse) files)).
  { rewrite collect_for_each by apply discovered_has_extension.
    rewrite run_bind.
    destruct (run env (for_each _ files)) as [[e | infos] t]; [reflexivity |].
    simpl. now rewrite app_nil_r. }
  split; [exact Heq |].
  intros code_info t H. rewrite Heq in H.
  apply for_each_records in H as [Hf Hr].
  repeat split; [exact Hf | exact Hr |].
  apply (f_equal (@length str)) in Hf. now rewrite length_map in Hf.
Qed.

(** ** The report *)

Lemma write_item_section (f : str) (item : file_info) (rest : str) :
  write_item f item ++ rest = f ++ section item rest.
Proof.
  unfold write_item, section, classes_block, functions_block, closing,
    bullets, write.
  destruct (classes item) as [| c cs]; destruct (functions item) as [| g gs];
    repeat rewrite (extend_loop (fun x => txt "- `" ++ x ++ txt "`" ++ [LF]));
    rewrite <- ?app_assoc; cbn [app]; rewrite <- ?app_assoc; reflexivity.
Qed.

Lemma write_items_sections (code_info : list file_info) :
  forall f, fold_left write_item code_info f = f ++ sections code_info.
Proof.
  induction code_info as [| item l IH]; intros f; cbn [fold_left sections].
  - now rewrite app_nil_r.
  - rewrite IH. apply write_item_section.
Qed.

Lemma report_sections (code_info : list file_info) :
  report code_info = title ++ sections code_info.
Proof.
  unfold report. rewrite write_items_sections. reflexivity.
Qed.

Lemma one_line_cons (c : char) (s : str) :
  one_line (c :: s) = true <-> c <> LF /\ one_line s = true.
Proof.
  unfold one_line. cbn [existsb].
  destruct (N.eqb_spec LF c) as [<- | Hne]; cbn [orb negb].
  - split; [discriminate | intros [H _]; congruence].
  - split; [intros H; split; [congruence | exact H] | tauto].
Qed.

Lemma one_line_app (a b : str) :
  one_line (a ++ b) = one_line a && one_line b.
Proof.
  unfold one_line. now rewrite existsb_app, negb_orb.
Qed.

(** Two texts that agree have the same first line and the same rest. *)
Lemma split_line (a : str) :
  forall b x y,
    one_line a = true -> one_line b = true ->
    a ++ LF :: x = b ++ LF :: y -> a = b /\ x = y.
Proof.
  induction a as [| c a IH]; intros [| d b] x y Ha Hb H; simpl in H.
  - injection H as ->. auto.
  - injection H as <- _. apply one_line_cons in Hb as [Hd _]. congruence.
  - injection H as -> _. apply one_line_cons in Ha as [Hc _]. congruence.
  - injection H as -> H.
    apply one_line_cons in Ha as [_ Ha]. apply one_line_cons in Hb as [_ Hb].
    destruct (IH _ _ _ Ha Hb H) as [-> ->]. auto.
Qed.

Lemma one_line_basename (p : str) :
  one_line p = true -> one_line (py.basename p) = true.
Proof.
  unfold py.basename.
  assert (H : forall acc,
             one_line acc = true -> one_line p = true ->
             one_line (fold_left
                         (fun tail c =>
                            if N.eqb c (ch "/") then [] else tail ++ [c])
                         p acc) = true).
  { induction p as [| c p IH]; intros acc Hacc Hp; simpl; [exact Hacc |].
    apply one_line_cons in Hp as [Hc Hp].
    destruct (N.eqb c (ch "/")); apply IH; auto.
    rewrite one_line_app, Hacc. apply one_line_cons. auto. }
  apply H. reflexivity.
Qed.

(** Evaluate the literals of a hypothesis. *)
Ltac literals H :=
  repeat match type of H with
         | context [txt ?s] =>
             let v := eval vm_compute in (txt s) in
             change (txt s) with v in H
         end;
  unfold LF in H; cbn [app] in H.

Lemma bullets_inj (cs1 : list str) :
  forall cs2 z1 z2,
    forallb one_line cs1 = true -> forallb one_line cs2 = true ->
    bullets cs1 ++ LF :: z1 = bullets cs2 ++ LF :: z2 ->
    cs1 = cs2 /\ z1 = z2.
Proof.
  induction cs1 as [| c cs1 IH]; intros [| d cs2] z1 z2 H1 H2 H;
    cbn [bullets flat_map] in H.
  - injection H as ->. auto.
  - literals H. discriminate.
  - literals H. discriminate.
  - fold (bullets cs1) in H. fold (bullets cs2) in H.
    rewrite <- !app_assoc in H. apply app_inv_head in H.
    cbn [forallb] in H1, H2.
    apply andb_true_iff in H1 as [Hc H1]. apply andb_true_iff in H2 as [Hd H2].
    rewrite !(app_assoc _ (txt "`")) in H. cbn [app] in H.
    apply split_line in H as [Hcd H];
      [| rewrite one_line_app, ?Hc, ?Hd; reflexivity ..].
    apply app_inv_tail in Hcd. subst d.
    destruct (IH _ _ _ H1 H2 H) as [-> ->]. auto.
Qed.

Lemma closing_starts (item : file_info) (rest : str) :
  exists z, closing item rest = LF :: z.
Proof. eexists. reflexivity. Qed.

Lemma functions_block_starts (item : file_info) (rest : str) :
  exists z, functions_block item rest = LF :: z.
Proof.
  unfold functions_block. destruct (functions item);
    [apply closing_starts | eexists; reflexivity].
Qed.

Lemma closing_inj (i1 i2 : file_info) (r1 r2 : str) :
  one_line (summary i1) = true -> one_line (summary i2) = true ->
  closing i1 r1 = closing i2 r2 -> summary i1 = summary i2 /\ r1 = r2.
Proof.
  intros H1 H2 H. unfold closing in H. apply app_inv_head in H.
  apply split_line in H as [Hs H]; [| assumption ..].
  apply app_inv_head in H. auto.
Qed.

Lemma functions_block_inj (i1 i2 : file_info) (r1 r2 : str) :
  forallb one_line (functions i1) = true ->
  forallb one_line (functions i2) = true ->
  one_line (summary i1) = true -> one_line (summary i2) = true ->
  functions_block i1 r1 = functions_block i2 r2 ->
  functions i1 = functions i2 /\ summary i1 = summary i2 /\ r1 = r2.
Proof.
  intros Hf1 Hf2 Hs1 Hs2 H. unfold functions_block in H.
  destruct (functions i1) as [| g1 gs1] eqn:E1;
    destruct (functions i2) as [| g2 gs2] eqn:E2.
  - split; [reflexivity | now apply closing_inj].
  - unfold closing in H. literals H. discriminate.
  - unfold closing in H. literals H. discriminate.
  - apply app_inv_head in H.
    destruct (closing_starts i1 r1) as [z1 Hz1].
    destruct (closing_starts i2 r2) as [z2 Hz2].
    rewrite Hz1, Hz2 in H.
    apply bullets_inj in H as [Hg Hz]; [| assumption ..].
    split; [exact Hg |]. apply closing_inj; try assumption.
    now rewrite Hz1, Hz2, Hz.
Qed.

Lemma classes_block_inj (i1 i2 : file_info) (r1 r2 : str) :
  printable i1 = true -> printable i2 = true ->
  classes_block i1 r1 = classes_block i2 r2 ->
  classes i1 = classes i2 /\ functions i1 = functions i2 /\
  summary i1 = summary i2 /\ r1 = r2.
Proof.
  unfold printable. rewrite !andb_true_iff.
  intros [[[_ Hc1] Hf1] Hs1] [[[_ Hc2] Hf2] Hs2] H.
  unfold classes_block in H.
  destruct (functions_block_starts i1 r1) as [z1 Hz1].
  destruct (functions_block_starts i2 r2) as [z2 Hz2].
  destruct (classes i1) as [| c1 cs1] eqn:E1;
    destruct (classes i2) as [| c2 cs2] eqn:E2.
  - split; [reflexivity | now apply functions_block_inj].
  - rewrite Hz1 in H. literals H. discriminate.
  - rewrite Hz2 in H. literals H. discriminate.
  - apply app_inv_head in H. rewrite Hz1, Hz2 in H.
    apply bullets_inj in H as [Hc Hz]; [| assumption ..].
    split; [exact Hc |]. apply functions_block_inj; try assumption.
    now rewrite Hz1, Hz2, Hz.
Qed.

Lemma section_inj (i1 i2 : file_info) (r1 r2 : str) :
  printable i1 = true -> printable i2 = true ->
  section i1 r1 = section i2 r2 -> i1 = i2 /\ r1 = r2.
Proof.
  intros P1 P2 H.
  assert (Hp1 : one_line (file i1) = true).
  { unfold printable in P1. rewrite !andb_true_iff in P1. tauto. }
  assert (Hp2 : one_line (file i2) = true).
  { unfold printable in P2. rewrite !andb_true_iff in P2. tauto. }
  unfold section in H. apply app_inv_head in H.
  apply split_line in H as [_ H]; [| now apply one_line_basename ..].
  apply app_inv_head in H.
  apply split_line in H as [Hp H];
    [| rewrite one_line_app, ?Hp1, ?Hp2; reflexivity ..].
  apply app_inv_tail in Hp. injection H as H.
  destruct (classes_block_inj _ _ _ _ P1 P2 H) as (Hc & Hf & Hs & Hr).
  split; [| exact Hr].
  destruct i1, i2. simpl in *. congruence.
Qed.

Lemma sections_inj (l1 : list file_info) :
  forall l2,
    forallb printable l1 = true -> forallb printable l2 = true ->
    sections l1 = sections l2 -> l1 = l2.
Proof.
  induction l1 as [| i1 l1 IH]; intros [| i2 l2] H1 H2 H; cbn [sections] in H.
  - reflexivity.
  - unfold section in H. literals H. discriminate.
  - unfold section in H. literals H. discriminate.
  - cbn [forallb] in H1, H2.
    apply andb_true_iff in H1 as [P1 H1]. apply andb_true_iff in H2 as [P2 H2].
    apply section_inj in H as [-> H]; [| assumption ..].
    f_equal. now apply IH.
Qed.

(** C8. For records whose path, class names, function names and summary
    hold no line feed, the report determines the records: two such lists
    of records with the same report are the same list, so that the path
    (and with it the base name), the classes, the functions and the
    summary of every record can be read back from the report. *)
Theorem report_determines_printable_records (l1 l2 : list file_info) :
  forallb printable l1 = true ->
  forallb printable l2 = true ->
  report l1 = report l2 ->
  l1 = l2.
Proof.
  intros H1 H2 H. rewrite !report_sections in H. apply app_inv_head in H.
  now apply sections_inj.
Qed.

(** Without that restriction the report does not determine the records:
    [one_record] and [two_records] have the same report, so no function
    reads the records back from every report. *)
Lemma report_is_not_injective :
  report one_record = report two_records /\
  one_record <> two_records /\
  ~ (exists parse : str -> list file_info,
       forall code_info, parse (report code_info) = code_info).
Proof.
  assert (Heq : report one_record = report two_records)
    by (vm_compute; reflexivity).
  assert (Hne : one_record <> two_records) by discriminate.
  split; [exact Heq | split; [exact Hne |]].
  intros [parse Hparse]. apply Hne.
  rewrite <- (Hparse one_record), Heq. apply Hparse.
Qed.

(* ===================================================================== *)
(** * The theorems at concrete inputs                                     *)
(* ===================================================================== *)

Lemma short_text_gets_sentinel_witness :
  length (py.split (txt "function greet(){}")) < 50 /\
  run silent (generate_ai_summary (txt "function greet(){}"))
    = (inr too_short, []).
Proof.
  assert (H : length (py.split (txt "function greet(){}")) < 50)
    by (apply Nat.ltb_lt; vm_compute; reflexivity).
  split; [exact H |].
  exact (proj1 (short_text_gets_sentinel silent (txt "function greet(){}") H)).
Defined.

Lemma long_text_is_truncated_witness :
  50 <= length (py.split long_text) /\ 1024 < length long_text /\
  calls (snd (run silent (generate_ai_summary long_text)))
    = [Request (firstn 1024 long_text) 100 30 false].
Proof.
  assert (H1 : 50 <= length (py.split long_text))
    by (apply Nat.leb_le; vm_compute; reflexivity).
  assert (H2 : 1024 < length long_text)
    by (apply Nat.ltb_lt; vm_compute; reflexivity).
  split; [exact H1 | split; [exact H2 |]].
  exact (proj1 (long_text_is_truncated silent long_text H1 H2)).
Defined.

Lemma search_lists_a_record_once_witness :
  search_codebase ([] ++ foo_record :: []) (txt "Foo")
  = search_codebase [] (txt "Foo") ++ [txt "./a.py"]
    ++ search_codebase [] (txt "Foo").
Proof.
  apply (search_lists_a_record_once [] [] foo_record (txt "Foo")).
  left. simpl. left. reflexivity.
Defined.

Lemma grammar_extraction_finds_every_definition_witness :
  exists cs fs,
    (forall x, In x cs <->
       exists n, ast.within n nested_example /\ ast.kind n = ast.ClassDef
                 /\ ast.name n = x) /\
    (forall x, In x fs <->
       exists n, ast.within n nested_example /\ ast.kind n = ast.FunctionDef
                 /\ ast.name n = x) /\
    fst (run nested_disk
           (extract_python_info (fun _ => inr nested_example) (txt "./a.py")))
    = match fst (run nested_disk (generate_ai_summary nested_text)) with
      | inl e => inl e
      | inr s => inr (FileInfo (txt "./a.py") cs fs s)
      end.
Proof.
  apply (grammar_extraction_finds_every_definition
           (fun _ => inr nested_example) nested_disk (txt "./a.py")
           (T := nested_text) (tree := nested_example));
    reflexivity.
Defined.

Lemma small_tree_well_formed : os.well_formed small_tree.
Proof.
  assert (Hneq : forall a b : str, py.str_eqb a b = false -> a <> b).
  { intros a b H E. apply str_eqb_eq in E. congruence. }
  assert (Hvalid : forall n : str,
             n <> [] -> existsb (N.eqb (ch "/")) n = false -> os.valid_name n).
  { intros n Hn Hs. split; [exact Hn |]. intros Hin.
    assert (existsb (N.eqb (ch "/")) n = true)
      by (apply existsb_exists; exists (ch "/"); split;
          [exact Hin | apply N.eqb_refl]).
    congruence. }
  unfold small_tree. constructor.
  - constructor; [| constructor; [| constructor]].
    + intros [H | []]. revert H. apply Hneq. reflexivity.
    + intros [].
  - constructor; [intros [] | constructor].
  - repeat constructor; apply Hvalid; (discriminate || reflexivity).
  - repeat constructor; apply Hvalid; (discriminate || reflexivity).
  - constructor; [| constructor]. simpl. constructor.
    + constructor; [| constructor; [| constructor]].
      * intros [H | []]. revert H. apply Hneq. reflexivity.
      * intros [].
    + constructor.
    + repeat constructor; apply Hvalid; (discriminate || reflexivity).
    + constructor.
    + constructor.
Defined.

Lemma discovery_is_exact_witness :
  os.well_formed small_tree /\
  (forall p,
     In p (get_code_files small_tree (txt ".") default_extensions) <->
     exists ds name,
       os.holds small_tree ds name /\ has_extension default_extensions name /\
       p = os.path_of (txt ".") ds name) /\
  NoDup (get_code_files small_tree (txt ".") default_extensions).
Proof.
  split; [exact small_tree_well_formed |].
  exact (discovery_is_exact (txt ".") default_extensions
           small_tree_well_formed).
Defined.

Lemma report_determines_printable_records_witness :
  forallb printable two_records = true /\ two_records = two_records.
Proof.
  assert (H : forallb printable two_records = true)
    by (vm_compute; reflexivity).
  split; [exact H |].
  exact (report_determines_printable_records two_records two_records
           H H eq_refl).
Defined.

(** ** The scenarios of the specification *)

(** Discovery compares extensions character for character: [c.PY] is not
    a [.py] file. *)
Example discovery_on_small_tree :
  get_code_files small_tree (txt ".") default_extensions
  = [txt "./a.py"; txt "./src/b.js"].
Proof. vm_compute. reflexivity. Qed.

(** A run of the main loop that completes: one record per file. *)
Example main_loop_on_small_tree (unicode_isalnum : char -> bool) :
  run nested_disk
      (collect unicode_isalnum (fun _ => inr nested_example)
         (get_code_files small_tree (txt ".") default_extensions) [])
  = (inr [FileInfo (txt "./a.py") [txt "A"] [txt "g"; txt "f"] too_short;
          FileInfo (txt "./src/b.js") [txt "A"] [] too_short],
     [Read (txt "./a.py"); Read (txt "./src/b.js")]).
Proof. vm_compute. reflexivity. Qed.

(** Search mode and report mode of the main block on that tree. *)
Example main_search_found (unicode_isalnum : char -> bool) :
  snd (run nested_disk
         (main unicode_isalnum (fun _ => inr nested_example) small_tree
            [txt "devsync.py"; txt "A"]))
  = [Read (txt "./a.py"); Read (txt "./src/b.js");
     Printed ([0x1F50D%N] ++ txt " Found `A` in:");
     Printed (txt "- ./a.py"); Printed (txt "- ./src/b.js")].
Proof. vm_compute. reflexivity. Qed.

Example main_search_missing (unicode_isalnum : char -> bool) :
  snd (run nested_disk
         (main unicode_isalnum (fun _ => inr nested_example) small_tree
            [txt "devsync.py"; txt "Missing"]))
  = [Read (txt "./a.py"); Read (txt "./src/b.js");
     Printed ([0x274C%N] ++ txt " `Missing` not found in the codebase.")].
Proof. vm_compute. reflexivity. Qed.

(** An asynchronous definition is a node of another class and is not
    listed among the functions. *)
Example async_def_is_not_a_FunctionDef :
  names_of ast.FunctionDef
    (ast.Node ast.Mod [] 0
       [ast.Node ast.AsyncFunctionDef (txt "fetch") 1 [];
        ast.Node ast.FunctionDef (txt "run") 2 []])
  = [txt "run"].
Proof. vm_compute. reflexivity. Qed.

(* ===================================================================== *)
(** * Further properties                                                  *)
(* ===================================================================== *)

(** ** The summarizer adapter, continued *)

(** A text needs two characters per token but for the last. *)
Lemma split_from_length (s : str) :
  forall cur,
    2 * length (py.split_from cur s)
    <= length s + match cur with [] => 1 | _ => 2 end.
Proof.
  induction s as [| c s IH]; intros cur; simpl.
  - destruct cur; simpl; lia.
  - destruct (py.isspace c).
    + destruct cur; [specialize (IH []); simpl in IH; lia |].
      specialize (IH []). simpl in *. lia.
    + specialize (IH (c :: cur)). simpl in IH. destruct cur; lia.
Qed.

Lemma summary_effects (env : environment) (T : str) :
  let t := snd (run env (generate_ai_summary T)) in
  (calls t = [] \/ calls t = [Request (firstn 1024 T) 100 30 false]) /\
  reads t = [] /\ outputs t = [].
Proof.
  unfold generate_ai_summary.
  destruct (length (py.split T) <? 50); simpl; [auto |].
  destruct (summarizer env _) as [e | [| d resp]]; simpl; auto.
  destruct (dict_get d _); simpl; auto.
Qed.

(** X1. Whatever the text and the environment, a summary sends at most one
    request, of at most 1024 characters (the whole text when it has no
    more), always with the parameters 100, 30 and no sampling; it reads no
    file, writes none and prints nothing. *)
Theorem summary_sends_at_most_one_bounded_request
        (env : environment) (T : str) :
  let t := snd (run env (generate_ai_summary T)) in
  length (calls t) <= 1 /\
  Forall (fun req =>
            text req = firstn 1024 T /\ length (text req) <= 1024 /\
            (length T <= 1024 -> text req = T) /\
            max_length req = 100 /\ min_length req = 30 /\
            do_sample req = false)
         (calls t) /\
  reads t = [] /\ outputs t = [].
Proof.
  intros t. destruct (summary_effects env T) as ([Hc | Hc] & Hr & Ho);
    fold t in Hc, Hr, Ho; rewrite Hc.
  - repeat split; auto.
  - split; [apply Nat.le_refl | split; [| auto]].
    constructor; [| constructor]. cbn [text max_length min_length do_sample].
    repeat split.
    + rewrite length_firstn. lia.
    + intros H. now apply firstn_all2.
Qed.

(** X2. A text of fewer than 99 characters cannot hold 50 tokens: it gets
    the sentinel and nothing is sent. *)
Theorem text_under_99_characters_gets_sentinel
        (env : environment) (T : str) :
  length T < 99 ->
  run env (generate_ai_summary T) = (inr too_short, []).
Proof.
  intros H. unfold generate_ai_summary.
  pose proof (split_from_length T []) as Hs. fold (py.split T) in Hs.
  simpl in Hs.
  destruct (Nat.ltb_spec (length (py.split T)) 50); [reflexivity | lia].
Qed.

(** ** Pattern-based extraction, continued *)

Section Soundness.

Variable unicode_isalnum : char -> bool.

Local Abbreviation denotes := (denotes unicode_isalnum).
Local Abbreviation all_in := (all_in unicode_isalnum).

Lemma repeat_set_sound (cs : re.charset) (aft : str) :
  forall bef g k res,
    re.repeat_set (re.in_set unicode_isalnum cs) bef aft g k = Some res ->
    exists w st',
      all_in cs w /\ advance w (re.State bef aft g) st' /\ k st' = Some res.
Proof.
  induction aft as [| c aft IH]; simpl; intros bef g k res H.
  - exists [], (re.State bef [] g).
    repeat split; [constructor | exact H].
  - destruct (re.in_set unicode_isalnum cs c) eqn:Ec.
    + destruct (re.repeat_set _ (c :: bef) aft g k) eqn:E.
      * injection H as <-.
        apply IH in E as (w & st' & Hw & (Ha & Hb & Hg) & Hk).
        exists (c :: w), st'. simpl in *.
        repeat split; [constructor; assumption | now rewrite Ha | | exact Hg
                      | exact Hk].
        rewrite Hb. simpl. now rewrite <- app_assoc.
      * exists [], (re.State bef (c :: aft) g).
        repeat split; [constructor | exact H].
    + exists [], (re.State bef (c :: aft) g).
      repeat split; [constructor | exact H].
Qed.

(** What the matcher accepts, the pattern denotes. *)
Lemma matches_sound (r : re.regex) :
  forall st k res,
    re.matches unicode_isalnum r st k = Some res ->
    exists st', denotes r st st' /\ k st' = Some res.
Proof.
  induction r as [| | cs | cs | cs | r1 IH1 r2 IH2 | r1 IH1 r2 IH2 | r IH];
    simpl; intros st k res H.
  - exists st. auto.
  - destruct (re.at_boundary unicode_isalnum st) eqn:E; [| discriminate].
    exists st. auto.
  - destruct st as [bef aft g]. simpl in *.
    destruct aft as [| c aft]; [discriminate |].
    destruct (re.in_set unicode_isalnum cs c) eqn:E; [| discriminate].
    eexists. split; [| exact H].
    exists c. split; [constructor; [exact E | constructor] |].
    repeat split.
  - destruct st as [bef aft g]. simpl in *.
    apply repeat_set_sound in H as (w & st' & Hw & Ha & Hk).
    exists st'. split; [| exact Hk]. exists w. auto.
  - destruct st as [bef aft g]. simpl in *.
    destruct aft as [| c aft]; [discriminate |].
    destruct (re.in_set unicode_isalnum cs c) eqn:E; [| discriminate].
    apply repeat_set_sound in H as (w & st' & Hw & (Ha & Hb & Hg) & Hk).
    exists st'. split; [| exact Hk]. exists (c :: w). simpl in *.
    split; [discriminate |]. split; [constructor; assumption |].
    repeat split; [now rewrite Ha | | exact Hg].
    rewrite Hb. simpl. now rewrite <- app_assoc.
  - apply IH1 in H as (mid & H1 & H).
    apply IH2 in H as (st' & H2 & Hk).
    exists st'. split; [exists mid; auto | exact Hk].
  - destruct (re.matches unicode_isalnum r1 st k) eqn:E.
    + injection H as <-. apply IH1 in E as (st' & H1 & Hk).
      exists st'. auto.
    + apply IH2 in H as (st' & H2 & Hk). exists st'. auto.
  - apply IH in H as (st1 & H1 & Hk).
    eexists. split; [| exact Hk]. exists st1. auto.
Qed.

(** A match object is what the pattern denotes from the place tried. *)
Lemma attempt_sound (r : re.regex) (bef aft : str) (ma : bool) m :
  re.attempt unicode_isalnum r bef aft ma = Some m ->
  exists st',
    denotes r (re.State bef aft None) st' /\ re.group1 m = re.captured st'.
Proof.
  unfold re.attempt.
  destruct (re.matches _ _ _ _) as [res |] eqn:E; [| discriminate].
  intros H. injection H as <-. simpl.
  apply matches_sound in E as (st' & Hd & Hk).
  destruct (ma && _); [discriminate |]. injection Hk as <-.
  exists st'. auto.
Qed.

(** Every match of a scan was found by an attempt at some cut of the
    text scanned. *)
Lemma scan_attempts (r : re.regex) (aft : str) :
  forall bef skip,
    Forall (fun m =>
              exists bef' aft' ma,
                rev bef' ++ aft' = rev bef ++ aft /\
                re.attempt unicode_isalnum r bef' aft' ma = Some m)
           (re.scan unicode_isalnum r bef aft skip).
Proof.
  induction aft as [| c aft IH]; intros bef skip.
  - destruct skip as [| n]; simpl; [| constructor].
    destruct (re.attempt _ r bef [] false) as [m |] eqn:E; [| constructor].
    assert (Hm : exists bef' aft' ma,
               rev bef' ++ aft' = rev bef ++ [] /\
               re.attempt unicode_isalnum r bef' aft' ma = Some m)
      by (exists bef, [], false; auto).
    destruct (re.m_end m =? re.m_start m); constructor; auto.
    destruct (re.attempt _ r bef [] true) as [m' |] eqn:E'; constructor.
    + exists bef, [], true. auto.
    + constructor.
  - assert (Hnext : forall n,
               Forall (fun m =>
                         exists bef' aft' ma,
                           rev bef' ++ aft' = rev bef ++ c :: aft /\
                           re.attempt unicode_isalnum r bef' aft' ma = Some m)
                      (re.scan unicode_isalnum r (c :: bef) aft n)).
    { intros n. eapply Forall_impl; [| apply IH].
      simpl. intros m (bef' & aft' & ma & Hcut & Ha).
      exists bef', aft', ma. split; [| exact Ha].
      now rewrite Hcut, <- app_assoc. }
    destruct skip as [| n]; simpl; [| apply Hnext].
    destruct (re.attempt _ r bef (c :: aft) false) as [m |] eqn:E;
      [| apply Hnext].
    assert (Hm : exists bef' aft' ma,
               rev bef' ++ aft' = rev bef ++ c :: aft /\
               re.attempt unicode_isalnum r bef' aft' ma = Some m)
      by (exists bef, (c :: aft), false; auto).
    destruct (re.m_end m =? re.m_start m); constructor; auto.
    destruct (re.attempt _ r bef (c :: aft) true) as [m' |] eqn:E';
      [| apply Hnext].
    constructor; [| apply Hnext].
    exists bef, (c :: aft), true. auto.
Qed.

(** A literal word moves the matcher over exactly that word. *)
Lemma literal_denotes (s : str) :
  forall st st', denotes (re.literal s) st st' -> advance s st st'.
Proof.
  induction s as [| c s IH]; simpl; intros st st' H.
  - subst. repeat split.
  - destruct H as (mid & (c' & Hc & Ha & Hb & Hg) & H).
    apply IH in H as (Ha' & Hb' & Hg').
    inversion Hc as [| ? ? Hc' _]; subst. simpl in Hc'.
    apply N.eqb_eq in Hc'. subst c'. simpl in *.
    repeat split; [now rewrite Ha, Ha' | | congruence].
    rewrite Hb', Hb. simpl. now rewrite <- app_assoc.
Qed.

(** A group around a repetition captures the characters it moved over. *)
Lemma group_plus_denotes (cs : re.charset) (st st' : re.state) :
  denotes (re.Group (re.Plus cs)) st st' ->
  exists w,
    w <> [] /\ all_in cs w /\
    re.after st = w ++ re.after st' /\
    re.before st' = rev w ++ re.before st /\
    re.captured st' = Some w.
Proof.
  simpl. intros (st1 & (w & Hne & Hw & Ha & Hb & _) & ->). simpl.
  exists w. repeat split; auto. f_equal. unfold re.position.
  rewrite Hb, length_app, length_rev, Nat.add_sub.
  rewrite <- (length_rev w), firstn_app, Nat.sub_diag, firstn_all. simpl.
  now rewrite app_nil_r, rev_involutive.
Qed.

End Soundness.

Section Patterns.

Variable unicode_isalnum : char -> bool.

Local Abbreviation denotes := (denotes unicode_isalnum).
Local Abbreviation all_in := (all_in unicode_isalnum).
Local Abbreviation attempt := (re.attempt unicode_isalnum).
Local Abbreviation findall := (re.findall unicode_isalnum).

Lemma seq_denotes (r1 r2 : re.regex) (st st' : re.state) :
  denotes (re.Seq r1 r2) st st' ->
  exists mid, denotes r1 st mid /\ denotes r2 mid st'.
Proof. exact (fun H => H). Qed.

Lemma star_denotes (cs : re.charset) (st st' : re.state) :
  denotes (re.Star cs) st st' -> exists w, all_in cs w /\ advance w st st'.
Proof. exact (fun H => H). Qed.

Lemma plus_denotes (cs : re.charset) (st st' : re.state) :
  denotes (re.Plus cs) st st' ->
  exists w, w <> [] /\ all_in cs w /\ advance w st st'.
Proof. exact (fun H => H). Qed.

Lemma paren_denotes (st st' : re.state) :
  denotes (re.One (re.Lit (ch "("))) st st' -> advance (txt "(") st st'.
Proof.
  intros (c & Hc & Ha). inversion Hc as [| ? ? Hc' _]; subst.
  simpl in Hc'. apply N.eqb_eq in Hc'. now subst c.
Qed.

(** The names of [findall] are the groups of attempts at cuts of the text. *)
Lemma findall_from_attempts (r : re.regex) (content : str) (P : str -> Prop) :
  (forall bef aft ma m,
      rev bef ++ aft = content -> attempt r bef aft ma = Some m ->
      P (match re.group1 m with Some g => g | None => [] end)) ->
  Forall P (findall r content).
Proof.
  intros H. unfold re.findall, re.finditer. apply Forall_forall.
  intros name Hin. apply in_map_iff in Hin as (m & <- & Hin).
  pose proof (scan_attempts unicode_isalnum r content [] 0) as Hs.
  rewrite Forall_forall in Hs.
  destruct (Hs m Hin) as (bef & aft & ma & Hcut & Ha).
  now apply (H bef aft ma).
Qed.

(** A match of the class pattern: the keyword at a word boundary,
    whitespace, and the name captured. *)
Lemma class_pattern_attempt (bef aft : str) (ma : bool) m :
  attempt class_pattern bef aft ma = Some m ->
  exists ws name post,
    aft = txt "class" ++ ws ++ name ++ post /\
    re.word_at unicode_isalnum bef = false /\
    ws <> [] /\ all_in re.Space ws /\
    name <> [] /\ all_in re.Word name /\
    re.group1 m = Some name.
Proof.
  intros H. apply attempt_sound in H as (st' & H & ->).
  unfold class_pattern in H.
  apply seq_denotes in H as (s1 & [Hb ->] & H).
  apply seq_denotes in H as (s2 & Hl & H).
  apply seq_denotes in H as (s3 & Hs & H).
  apply literal_denotes in Hl as (Ha2 & Hb2 & Hg2).
  apply plus_denotes in Hs as (ws & Hne & Hws & Ha3 & Hb3 & Hg3).
  apply group_plus_denotes in H as (name & Hn & Hname & Ha4 & Hb4 & Hg4).
  simpl in Ha2. exists ws, name, (re.after st').
  repeat split; auto.
  - now rewrite Ha2, Ha3, Ha4.
  - unfold re.at_boundary in Hb. simpl in Hb. rewrite Ha2 in Hb.
    destruct (re.word_at unicode_isalnum bef); [discriminate | reflexivity].
Qed.

(** A match of the function pattern: the lead, the name captured, and an
    opening parenthesis, with optional whitespace around the name. *)
Lemma function_pattern_attempt (bef aft : str) (ma : bool) m :
  attempt function_pattern bef aft ma = Some m ->
  exists lead ws name ws' post,
    aft = lead ++ ws ++ name ++ ws' ++ txt "(" ++ post /\
    function_lead unicode_isalnum lead /\
    all_in re.Space ws /\ all_in re.Space ws' /\
    name <> [] /\ all_in re.Word name /\
    re.group1 m = Some name.
Proof.
  intros H. apply attempt_sound in H as (st' & H & ->).
  unfold function_pattern in H.
  apply seq_denotes in H as (s1 & [_ ->] & H).
  apply seq_denotes in H as (s2 & Hlead & H).
  apply seq_denotes in H as (s3 & Hws & H).
  apply seq_denotes in H as (s4 & Hname & H).
  apply seq_denotes in H as (s5 & Hws' & H).
  apply star_denotes in Hws as (ws & Hws & Ha3 & _ & _).
  apply group_plus_denotes in Hname as (name & Hn & Hname & Ha4 & _ & Hg4).
  apply star_denotes in Hws' as (ws' & Hws' & Ha5 & _ & Hg5).
  apply paren_denotes in H as (Ha6 & _ & Hg6).
  assert (Hl : exists lead,
             aft = lead ++ re.after s2 /\ function_lead unicode_isalnum lead).
  { destruct Hlead as [Hk | Hc].
    - apply seq_denotes in Hk as (k1 & Hk & Hs).
      apply literal_denotes in Hk as (Hak & _ & _).
      apply plus_denotes in Hs as (ws1 & Hne & Hws1 & Has & _ & _).
      simpl in Hak. exists (txt "function" ++ ws1). split.
      + now rewrite Hak, Has, <- app_assoc.
      + left. exists ws1. auto.
    - apply seq_denotes in Hc as (c1 & (c & Hc & Hac & _ & _) & Hr).
      apply seq_denotes in Hr as (c2 & Hw & Hr).
      apply seq_denotes in Hr as (c3 & Hs & Hp).
      apply star_denotes in Hw as (w & Hw & Haw & _ & _).
      apply star_denotes in Hs as (ws2 & Hws2 & Has & _ & _).
      apply paren_denotes in Hp as (Hap & _ & _).
      simpl in Hac. exists (c :: w ++ ws2 ++ txt "("). split.
      + rewrite Hac, Haw, Has, Hap. simpl. now rewrite <- !app_assoc.
      + right. exists c, w, ws2. auto. }
  destruct Hl as (lead & Hal & Hlead').
  exists lead, ws, name, ws', (re.after st').
  repeat split; auto.
  - now rewrite Hal, Ha3, Ha4, Ha5, Ha6.
  - congruence.
Qed.

End Patterns.

Section Located.

Variable unicode_isalnum : char -> bool.

Local Abbreviation denotes := (denotes unicode_isalnum).

(** What a pattern denotes moves the matcher forward over some text [w];
    group 1 is left as it was, or holds a part of [w]. *)
Lemma denotes_moves (r : re.regex) :
  forall st st',
    denotes r st st' ->
    exists w,
      re.after st = w ++ re.after st' /\
      re.before st' = rev w ++ re.before st /\
      (re.captured st' = re.captured st \/
       exists a g b, w = a ++ g ++ b /\ re.captured st' = Some g).
Proof.
  induction r as [| | cs | cs | cs | r1 IH1 r2 IH2 | r1 IH1 r2 IH2 | r IH];
    simpl; intros st st' H.
  - subst. exists []. auto.
  - destruct H as [_ ->]. exists []. auto.
  - destruct H as (c & _ & Ha & Hb & Hg). exists [c]. auto.
  - destruct H as (w & _ & Ha & Hb & Hg). exists w. auto.
  - destruct H as (w & _ & _ & Ha & Hb & Hg). exists w. auto.
  - destruct H as (mid & H1 & H2).
    apply IH1 in H1 as (w1 & Ha1 & Hb1 & Hc1).
    apply IH2 in H2 as (w2 & Ha2 & Hb2 & Hc2).
    exists (w1 ++ w2). split; [| split].
    + now rewrite Ha1, Ha2, app_assoc.
    + now rewrite Hb2, Hb1, rev_app_distr, app_assoc.
    + destruct Hc2 as [Hc2 | (a & g & b & -> & Hc2)].
      * destruct Hc1 as [Hc1 | (a & g & b & -> & Hc1)].
        -- left. congruence.
        -- right. exists a, g, (b ++ w2). split; [| congruence].
           now rewrite <- !app_assoc.
      * right. exists (w1 ++ a), g, b. split; [| exact Hc2].
        now rewrite <- !app_assoc.
  - destruct H as [H | H]; [now apply IH1 | now apply IH2].
  - destruct H as (st1 & H1 & ->). apply IH in H1 as (w & Ha & Hb & _).
    exists w. simpl. split; [exact Ha | split; [exact Hb |]].
    right. exists [], w, []. split; [now rewrite app_nil_r |]. f_equal.
    unfold re.position.
    rewrite Hb, length_app, length_rev, Nat.add_sub.
    rewrite <- (length_rev w), firstn_app, Nat.sub_diag, firstn_all. simpl.
    now rewrite app_nil_r, rev_involutive.
Qed.

(** A match covers the text from the place tried to the place reached,
    and the text of its group lies in between. *)
Lemma attempt_located (r : re.regex) (bef aft : str) (ma : bool) m :
  re.attempt unicode_isalnum r bef aft ma = Some m ->
  exists a b rest,
    aft = (a ++ group_text m ++ b) ++ rest /\
    re.m_start m = length bef /\
    re.m_end m = length bef + length (a ++ group_text m ++ b).
Proof.
  unfold re.attempt.
  destruct (re.matches _ _ _ _) as [res |] eqn:E; [| discriminate].
  intros H. injection H as <-.
  apply matches_sound in E as (st' & Hd & Hk).
  destruct (ma && _); [discriminate |]. injection Hk as <-.
  apply denotes_moves in Hd as (w & Ha & Hb & Hc).
  unfold group_text, re.position. cbn [re.group1 re.m_start re.m_end].
  simpl in Ha, Hb, Hc.
  assert (Hlen : length (re.before st') = length bef + length w).
  { rewrite Hb, length_app, length_rev. lia. }
  destruct Hc as [-> | (a & g & b & -> & ->)].
  - exists w, [], (re.after st'). simpl. rewrite app_nil_r. auto.
  - exists a, b, (re.after st'). auto.
Qed.

(** Every match of [re.finditer] is located in the text scanned. *)
Lemma finditer_located (r : re.regex) (content : str) :
  Forall (located content) (re.finditer unicode_isalnum r content).
Proof.
  unfold re.finditer.
  eapply Forall_impl; [| apply (scan_attempts unicode_isalnum r content [] 0)].
  simpl. intros m (bef & aft & ma & Hcut & H).
  apply attempt_located in H as (a & b & rest & -> & Hs & He).
  exists (rev bef), a, b, rest. rewrite length_rev. repeat split; auto.
  lia.
Qed.

End Located.

(** C5, as amended. The record of a file lists names one per occurrence
    met, in the order the extraction meets them, and merges none.
    Pattern-based: the classes and the functions are the group texts of
    the matches of the class pattern and of the function pattern, one per
    match and in the order of the matches; each match is located in the
    text of the file, its name inside it, and each match starts no earlier
    than the one before it ends: the names follow the text from left to
    right. Grammar-based: the classes and the functions are the names of
    the [ClassDef] and of the [FunctionDef] nodes of the tree, one per
    node, taken level by level from the root, each level from left to
    right as the children are listed: a definition nearer the root comes
    before every definition nested more deeply, wherever they stand in
    the text. *)
Theorem names_follow_the_scan
        (unicode_isalnum : char -> bool)
        (ast_parse : str -> exception + ast.node)
        (env : environment) (path content : str) :
  disk env path = inr content ->
  (let class_matches := re.finditer unicode_isalnum class_pattern content in
   let function_matches :=
     re.finditer unicode_isalnum function_pattern content in
   ordered_from 0 class_matches /\
   Forall (located content) class_matches /\
   ordered_from 0 function_matches /\
   Forall (located content) function_matches /\
   fst (run env (extract_js_cpp_info unicode_isalnum path))
   = match fst (run env (generate_ai_summary content)) with
     | inl e => inl e
     | inr s => inr (FileInfo path (map group_text class_matches)
                              (map group_text function_matches) s)
     end) /\
  (forall tree,
     ast_parse content = inr tree ->
     fst (run env (extract_python_info ast_parse path))
     = match fst (run env (generate_ai_summary content)) with
       | inl e => inl e
       | inr s => inr (FileInfo path (names_by_level ast.ClassDef tree)
                                (names_by_level ast.FunctionDef tree) s)
       end).
Proof.
  intros Hread. split.
  - cbv zeta.
    split; [exact (scan_ordered unicode_isalnum class_pattern content [] 0) |].
    split; [apply finditer_located |].
    split; [exact (scan_ordered unicode_isalnum function_pattern content [] 0) |].
    split; [apply finditer_located |].
    unfold extract_js_cpp_info. cbn [run]. rewrite Hread, run_bind.
    destruct (run env (generate_ai_summary content)) as [[e | s] t];
      reflexivity.
  - intros tree Hparse. unfold extract_python_info. cbn [run].
    rewrite Hread, Hparse, run_bind, !names_of_by_level.
    destruct (run env (generate_ai_summary content)) as [[e | s] t];
      reflexivity.
Qed.

(** Names that occur twice are listed twice. *)
Example repeated_names_are_kept (unicode_isalnum : char -> bool) :
  re.findall unicode_isalnum class_pattern (txt "class A {} class A {}")
    = [txt "A"; txt "A"] /\
  names_of ast.FunctionDef
    (ast.Node ast.Mod [] 0
       [ast.Node ast.FunctionDef (txt "f") 1 [];
        ast.Node ast.FunctionDef (txt "f") 2 []])
    = [txt "f"; txt "f"].
Proof. split; vm_compute; reflexivity. Qed.

Lemma words_are_one_line (unicode_isalnum : char -> bool) (name : str) :
  all_in unicode_isalnum re.Word name -> one_line name = true.
Proof.
  induction 1 as [| c name Hc _ IH]; [reflexivity |].
  apply one_line_cons. split; [| exact IH].
  intros ->. simpl in Hc. discriminate.
Qed.

(** X4. Every class name the class pattern returns stands in the text
    behind the keyword [class] and at least one whitespace character; the
    keyword does not continue a word, and the name is a non-empty run of
    word characters. *)
Theorem class_names_follow_the_keyword
        (unicode_isalnum : char -> bool) (content name : str) :
  In name (re.findall unicode_isalnum class_pattern content) ->
  exists pre ws post,
    content = pre ++ txt "class" ++ ws ++ name ++ post /\
    (forall pre' c, pre = pre' ++ [c] -> re.isword unicode_isalnum c = false) /\
    ws <> [] /\ Forall (fun c => py.isspace c = true) ws /\
    name <> [] /\ Forall (fun c => re.isword unicode_isalnum c = true) name.
Proof.
  revert name. apply Forall_forall. apply findall_from_attempts.
  intros bef aft ma m Hcut H.
  apply class_pattern_attempt in H
    as (ws & name & post & -> & Hb & Hne & Hws & Hn & Hname & ->).
  exists (rev bef), ws, post. repeat split; auto.
  intros pre' c Hpre. apply (f_equal (@rev char)) in Hpre.
  rewrite rev_involutive, rev_app_distr in Hpre. subst bef. exact Hb.
Qed.

(** X5. Every name the function pattern returns is a non-empty run of word
    characters that stands in the text before an opening parenthesis and
    behind either the keyword [function] and whitespace, or an identifier
    and an opening parenthesis (whitespace allowed around the name). *)
Theorem function_names_stand_between_lead_and_parenthesis
        (unicode_isalnum : char -> bool) (content name : str) :
  In name (re.findall unicode_isalnum function_pattern content) ->
  exists pre lead ws ws' post,
    content = pre ++ lead ++ ws ++ name ++ ws' ++ txt "(" ++ post /\
    function_lead unicode_isalnum lead /\
    Forall (fun c => py.isspace c = true) ws /\
    Forall (fun c => py.isspace c = true) ws' /\
    name <> [] /\ Forall (fun c => re.isword unicode_isalnum c = true) name.
Proof.
  revert name. apply Forall_forall. apply findall_from_attempts.
  intros bef aft ma m Hcut H.
  apply function_pattern_attempt in H
    as (lead & ws & name & ws' & post & -> & Hl & Hws & Hws' & Hn & Hname & ->).
  exists (rev bef), lead, ws, ws', post. repeat split; auto.
Qed.

Lemma pattern_names_one_line (unicode_isalnum : char -> bool) (content : str) :
  forallb one_line (re.findall unicode_isalnum class_pattern content) = true /\
  forallb one_line (re.findall unicode_isalnum function_pattern content) = true.
Proof.
  split; apply forallb_forall; apply Forall_forall;
    apply findall_from_attempts; intros bef aft ma m _ H.
  - apply class_pattern_attempt in H
      as (ws & name & post & _ & _ & _ & _ & _ & Hname & ->).
    now apply (words_are_one_line (unicode_isalnum := unicode_isalnum)).
  - apply function_pattern_attempt in H
      as (lead & ws & name & ws' & post & _ & _ & _ & _ & _ & Hname & ->).
    now apply (words_are_one_line (unicode_isalnum := unicode_isalnum)).
Qed.

(** X6. The names in a record of the pattern-based extraction hold no line
    feed; when the path and the summary hold none either, the record is
    one the report determines. *)
Theorem pattern_records_have_one_line_names
        (unicode_isalnum : char -> bool) (env : environment)
        (path : str) (info : file_info) (t : list effect) :
  run env (extract_js_cpp_info unicode_isalnum path) = (inr info, t) ->
  forallb one_line (classes info) = true /\
  forallb one_line (functions info) = true /\
  (one_line path = true -> one_line (summary info) = true ->
   printable info = true).
Proof.
  unfold extract_js_cpp_info. simpl.
  destruct (disk env path) as [e | content]; [discriminate |].
  rewrite run_bind.
  destruct (run env (generate_ai_summary content)) as [[e | s] t0];
    [discriminate |].
  simpl. intros H. injection H as <- _.
  destruct (pattern_names_one_line unicode_isalnum content) as [Hc Hf].
  cbn [classes functions file summary]. repeat split; auto.
  intros Hp Hs. unfold printable. cbn [classes functions file summary].
  now rewrite Hp, Hc, Hf, Hs.
Qed.

(** ** Search and report, continued *)

(** X8. Searching a concatenation is searching its parts: records never
    influence each other's result, and there are at most as many paths as
    records. *)
Theorem search_distributes_over_append
        (l1 l2 : list file_info) (term : str) :
  search_codebase (l1 ++ l2) term
    = search_codebase l1 term ++ search_codebase l2 term /\
  length (search_codebase l1 term) <= length l1.
Proof.
  rewrite !search_codebase_filter, filter_app, map_app. split; [reflexivity |].
  rewrite length_map. apply filter_length_le.
Qed.

Lemma write_item_appends (f : str) (item : file_info) :
  write_item f item = f ++ write_item [] item.
Proof.
  pose proof (write_item_section f item []) as H1.
  pose proof (write_item_section [] item []) as H2.
  rewrite app_nil_r in H1, H2. simpl in H2. now rewrite H1, H2.
Qed.

Lemma write_items_append (l : list file_info) :
  forall f, fold_left write_item l f = f ++ flat_map (write_item []) l.
Proof.
  induction l as [| item l IH]; intros f; cbn [fold_left flat_map].
  - now rewrite app_nil_r.
  - now rewrite IH, write_item_appends, app_assoc.
Qed.

(** X9. The report only grows: a section is appended to what was written
    and does not depend on it, the report of a concatenation is the report
    of the first part followed by the sections of the second, and the
    report of no record is the title alone. *)
Theorem report_grows_by_sections
        (f : str) (item : file_info) (l1 l2 : list file_info) :
  write_item f item = f ++ write_item [] item /\
  report (l1 ++ l2) = report l1 ++ flat_map (write_item []) l2 /\
  report [] = txt "# CodeMap Summary (AI-Powered) " ++ [0x1F916%N; LF; LF].
Proof.
  split; [apply write_item_appends | split; [| reflexivity]].
  unfold report. rewrite fold_left_app. apply write_items_append.
Qed.

(** ** Discovery, continued *)

(** X10. Discovery is top-down: the matching files of a directory, in the
    order listed, then the discoveries of its subdirectories, one after
    the other, each under the path joined from the directory and the
    subdirectory's name. *)
Theorem discovery_is_top_down
        (files : list str) (subdirs : list (str * os.dir))
        (directory : str) (extensions : list str) :
  get_code_files (os.Dir files subdirs) directory extensions
  = map (py.join directory)
        (filter (fun file => py.endswith_any file extensions) files)
    ++ flat_map (fun e => get_code_files (snd e)
                            (py.join directory (fst e)) extensions)
                subdirs.
Proof.
  rewrite get_code_files_found. cbn [found]. f_equal.
  apply flat_map_ext. intros e. now rewrite get_code_files_found.
Qed.

(** X11. Every path discovered ends with one of the extensions asked for,
    in any directory tree; with no extension nothing is discovered. *)
Theorem discovered_paths_carry_an_extension
        (fs : os.dir) (directory : str) (extensions : list str) :
  (forall p, In p (get_code_files fs directory extensions) ->
             has_extension extensions p) /\
  get_code_files fs directory [] = [].
Proof.
  split.
  - intros p Hp. apply endswith_any_spec.
    pose proof (discovered_has_extension fs directory extensions) as H.
    rewrite Forall_forall in H. now apply H.
  - pose proof (discovered_has_extension fs directory []) as H.
    destruct (get_code_files fs directory []) as [| p l]; [reflexivity |].
    inversion H as [| ? ? Hp _]. discriminate.
Qed.

Lemma basename_fold_no_slash (b : str) :
  ~ In (ch "/") b ->
  forall acc,
    fold_left (fun tail c => if N.eqb c (ch "/") then [] else tail ++ [c]) b acc
    = acc ++ b.
Proof.
  induction b as [| c b IH]; intros Hb acc; simpl.
  - now rewrite app_nil_r.
  - destruct (N.eqb_spec c (ch "/")) as [-> | _].
    + exfalso. apply Hb. now left.
    + rewrite IH by (intros Hin; apply Hb; now right).
      now rewrite <- app_assoc.
Qed.

Lemma basename_app (a b : str) :
  py.basename (a ++ b)
  = fold_left (fun tail c => if N.eqb c (ch "/") then [] else tail ++ [c])
              b (py.basename a).
Proof. unfold py.basename. apply fold_left_app. Qed.

Lemma basename_with_separator (top name : str) :
  ~ In (ch "/") name -> py.basename (with_separator top ++ name) = name.
Proof.
  intros Hn. rewrite basename_app.
  assert (Hw : py.basename (with_separator top) = []).
  { unfold with_separator. destruct top as [| t top]; [reflexivity |].
    destruct (py.endswith (t :: top) (txt "/")) eqn:E.
    - apply endswith_spec in E as [stem ->]. now rewrite basename_app.
    - now rewrite basename_app. }
  rewrite Hw. exact (basename_fold_no_slash name Hn []).
Qed.

Lemma holds_valid (d : os.dir) (ds : list str) (name : str) :
  os.holds d ds name -> os.well_formed d -> os.valid_name name.
Proof.
  induction 1 as [files subdirs name Hin
                 | files subdirs dirname sub ds name Hin _ IH];
    intros Hwf; inversion Hwf as [? ? _ _ Hfiles _ Hsubs]; subst.
  - rewrite Forall_forall in Hfiles. now apply Hfiles.
  - apply IH. rewrite Forall_forall in Hsubs. exact (Hsubs _ Hin).
Qed.

Lemma startswith_app (a b : str) : py.startswith (a ++ b) a = true.
Proof.
  induction a as [| c a IH]; [destruct b; reflexivity |].
  simpl. now rewrite N.eqb_refl, IH.
Qed.

(** X12. In a well-formed tree, every discovered path begins with the
    directory given (and a slash, unless the directory is empty or ends
    with one), and its base name, which heads its section of the report,
    is the name of the file found, ending with one of the extensions. *)
Theorem discovered_paths_name_their_files
        (fs : os.dir) (directory : str) (extensions : list str) (p : str) :
  os.well_formed fs ->
  In p (get_code_files fs directory extensions) ->
  py.startswith p (with_separator directory) = true /\
  has_extension extensions (py.basename p) /\
  exists ds, os.holds fs ds (py.basename p) /\
             p = os.path_of directory ds (py.basename p).
Proof.
  intros Hwf Hp. rewrite get_code_files_found in Hp. split.
  - rewrite (found_relative extensions Hwf) in Hp.
    apply in_map_iff in Hp as (r & <- & _). apply startswith_app.
  - apply found_spec in Hp as (ds & name & Hh & Hext & ->).
    assert (Hb : py.basename (os.path_of directory ds name) = name).
    { pose proof (holds_valid Hh Hwf) as Hv. unfold os.path_of.
      rewrite (join_valid _ Hv). apply basename_with_separator.
      now destruct Hv. }
    rewrite Hb. split; [exact Hext | exists ds; auto].
Qed.

(** ** Grammar-based extraction, continued *)

Lemma preorder_children (n : ast.node) :
  ast.preorder n = n :: flat_map ast.preorder (ast.iter_child_nodes n).
Proof.
  destruct n as [k x l cs]. reflexivity.
Qed.

(** The walk of a queue meets the nodes of its trees, each as often as it
    occurs. *)
Lemma walk_queue_preorder (q : list ast.node) :
  Permutation (ast.walk_queue q) (flat_map ast.preorder q).
Proof.
  funelim (ast.walk_queue q).
  - constructor.
  - cbn [flat_map]. rewrite preorder_children. cbn [app]. constructor.
    match goal with
    | IH : Permutation (ast.walk_queue _) _ |- _ => rewrite IH
    end.
    rewrite flat_map_app. apply Permutation_app_comm.
Qed.

(** X13. The grammar-based extraction lists the same names, each as often,
    as a reading of the definitions in the order of the text would: only
    the order can differ, and no definition is dropped or merged. *)
Theorem grammar_names_are_a_permutation_of_the_text
        (cls : ast.node_class) (tree : ast.node) :
  Permutation (names_of cls tree) (names_in_text_order cls tree) /\
  length (names_of cls tree)
  = length (filter (fun n => ast.isinstance n cls) (ast.preorder tree)).
Proof.
  assert (H : Permutation (names_of cls tree) (names_in_text_order cls tree)).
  { unfold names_of, names_in_text_order, ast.walk.
    apply Permutation_map.
    assert (Hp : Permutation (ast.walk_queue [tree]) (ast.preorder tree)).
    { rewrite walk_queue_preorder. simpl. now rewrite app_nil_r. }
    induction Hp; simpl; auto.
    - destruct (ast.isinstance x cls); auto.
    - destruct (ast.isinstance x cls), (ast.isinstance y cls); auto.
      apply perm_swap.
    - eapply Permutation_trans; eassumption. }
  split; [exact H |].
  apply Permutation_length in H. rewrite H.
  unfold names_in_text_order. apply length_map.
Qed.

(** ** The main block *)

Lemma calls_app (t t' : list effect) : calls (t ++ t') = calls t ++ calls t'.
Proof. induction t as [| [] t IH]; simpl; congruence. Qed.

Lemma outputs_app (t t' : list effect) :
  outputs (t ++ t') = outputs t ++ outputs t'.
Proof. induction t as [| [] t IH]; simpl; congruence. Qed.

Section MainBlock.

Variable unicode_isalnum : char -> bool.
Variable ast_parse : str -> exception + ast.node.
Variable env : environment.

Local Abbreviation strategy := (strategy unicode_isalnum ast_parse).
Local Abbreviation collect := (collect unicode_isalnum ast_parse).
Local Abbreviation main := (main unicode_isalnum ast_parse).

(** Extraction fails fast: a file that cannot be read ends either
    strategy with the error of the read, and a file that [ast.parse]
    refuses ends the grammar-based strategy with the error of the parser;
    the file was opened and nothing else happened. *)
Lemma extraction_fails_fast (path : str) :
  (forall e, disk env path = inl e ->
     run env (extract_python_info ast_parse path) = (inl e, [Read path]) /\
     run env (extract_js_cpp_info unicode_isalnum path)
       = (inl e, [Read path])) /\
  (forall T e, disk env path = inr T -> ast_parse T = inl e ->
     run env (extract_python_info ast_parse path) = (inl e, [Read path])).
Proof.
  split.
  - intros e H. unfold extract_python_info, extract_js_cpp_info. simpl.
    rewrite H. auto.
  - intros T e H Hp. unfold extract_python_info. simpl.
    rewrite H, Hp. reflexivity.
Qed.

(** Whatever its end, the run of a summary behind a read opens that
    file, calls the summarizer at most once, and neither writes nor
    prints. *)
Lemma read_then_summary (path content : str) (f : str -> file_info) :
  let t := Read path
           :: snd (run env (summary <- generate_ai_summary content ;;
                            Ret (f summary))) in
  reads t = [path] /\ length (calls t) <= 1 /\ outputs t = [].
Proof.
  intros t. subst t. rewrite run_bind.
  destruct (summary_effects env content) as (Hc & Hr & Ho).
  destruct (run env (generate_ai_summary content)) as [[e | s] t0];
    cbn [snd run] in *; rewrite ?app_nil_r; cbn [reads calls outputs];
    rewrite Hr, Ho; (split; [reflexivity | split; [| reflexivity]]);
    destruct Hc as [-> | ->]; cbn [length]; lia.
Qed.

Lemma strategy_effects (path : str) :
  reads (snd (run env (strategy path))) = [path] /\
  length (calls (snd (run env (strategy path)))) <= 1 /\
  outputs (snd (run env (strategy path))) = [].
Proof.
  unfold strategy, extract_python_info, extract_js_cpp_info.
  destruct (py.endswith path (txt ".py")); cbn [run];
    destruct (disk env path) as [e | content];
    try (cbn [snd reads calls outputs length]; repeat split; lia).
  - destruct (ast_parse content) as [e | tree].
    + cbn [run snd reads calls outputs length]. repeat split; lia.
    + pose proof (read_then_summary path content
                    (fun summary =>
                       FileInfo path (names_of ast.ClassDef tree)
                                (names_of ast.FunctionDef tree) summary)) as H.
      cbv zeta in H.
      destruct (run env (summary <- generate_ai_summary content ;; _))
        as [r t]. exact H.
  - pose proof (read_then_summary path content
                  (fun summary =>
                     FileInfo path
                       (re.findall unicode_isalnum class_pattern content)
                       (re.findall unicode_isalnum function_pattern content)
                       summary)) as H.
    cbv zeta in H.
    destruct (run env (summary <- generate_ai_summary content ;; _))
      as [r t]. exact H.
Qed.

(** The files are read in order, up to the first failure. *)
Lemma for_each_effects (files : list str) :
  (exists rest, files = reads (snd (run env (for_each strategy files))) ++ rest)
  /\ length (calls (snd (run env (for_each strategy files))))
     <= length (reads (snd (run env (for_each strategy files))))
  /\ outputs (snd (run env (for_each strategy files))) = [].
Proof.
  induction files as [| f files IH]; cbn [for_each].
  - simpl. split; [now exists [] | auto].
  - rewrite run_bind.
    destruct (strategy_effects f) as (Hr & Hc & Ho).
    destruct (run env (strategy f)) as [[e | info] t1]; cbn [snd] in *.
    + rewrite Hr, Ho. split; [now exists files | split; [simpl; lia | auto]].
    + rewrite run_bind.
      destruct IH as ((rest & Hrest) & Hc' & Ho').
      destruct (run env (for_each strategy files)) as [[e | infos] t2];
        cbn [snd run] in *; rewrite ?app_nil_r;
        rewrite reads_app, calls_app, outputs_app, Hr, Ho, Ho', !length_app;
        (split; [exists rest; simpl; now rewrite <- Hrest
                | split; [simpl length in *; lia | reflexivity]]).
Qed.

Lemma collect_run (fs : os.dir) :
  run env (collect (get_code_files fs (txt ".") default_extensions) [])
  = run env (for_each strategy
               (get_code_files fs (txt ".") default_extensions)).
Proof.
  rewrite collect_for_each by apply discovered_has_extension.
  rewrite run_bind.
  destruct (run env (for_each _ _)) as [[e | infos] t]; [reflexivity |].
  simpl. now rewrite app_nil_r.
Qed.

Lemma collect_effects (fs : os.dir) :
  let files := get_code_files fs (txt ".") default_extensions in
  let t := snd (run env (collect files [])) in
  (exists rest, files = reads t ++ rest) /\
  length (calls t) <= length (reads t) /\
  outputs t = [].
Proof.
  intros files t. subst t files. rewrite collect_run.
  apply for_each_effects.
Qed.

(** X14. Whatever its end, the loop of the main block reads discovered
    files only, in discovery order and each at most once; it calls the
    summarizer at most once per file read, writes no file and prints
    nothing. *)
Theorem main_loop_effects (fs : os.dir) :
  let files := get_code_files fs (txt ".") default_extensions in
  let t := snd (run env (collect files [])) in
  (exists rest, files = reads t ++ rest) /\
  length (calls t) <= length (reads t) /\
  outputs t = [].
Proof.
  intros files t. subst t files. rewrite collect_run.
  apply for_each_effects.
Qed.

Lemma for_each_stops (done rest : list str) (path : str)
      (e : exception) (t1 : list effect) :
  run env (strategy path) = (inl e, t1) ->
  forall infos t,
    run env (for_each strategy done) = (inr infos, t) ->
    run env (for_each strategy (done ++ path :: rest)) = (inl e, t ++ t1).
Proof.
  intros Hfail. induction done as [| f done IH]; intros infos t; simpl.
  - intros H. injection H as _ <-. now rewrite run_bind, Hfail.
  - rewrite !run_bind.
    destruct (run env (strategy f)) as [[e' | info] t0]; [discriminate |].
    rewrite !run_bind.
    destruct (run env (for_each strategy done)) as [[e' | infos'] t2];
      [discriminate |].
    simpl. intros H. injection H as _ <-.
    rewrite (IH _ _ eq_refl). now rewrite app_nil_r, app_assoc.
Qed.

(** X7. The loop of the main block stops at the first discovered file
    whose extraction raises (the file cannot be read, [ast.parse] refuses
    it, or its summary fails): the run ends with that exception, the files
    before it and the failing file are the only ones opened, and the files
    after it are never read. *)
Theorem first_failure_stops_the_loop
        (fs : os.dir) (done rest : list str) (path : str)
        (infos : list file_info) (t t1 : list effect) (e : exception) :
  get_code_files fs (txt ".") default_extensions = done ++ path :: rest ->
  run env (for_each strategy done) = (inr infos, t) ->
  run env (strategy path) = (inl e, t1) ->
  run env (collect (get_code_files fs (txt ".") default_extensions) [])
    = (inl e, t ++ t1) /\
  reads (t ++ t1) = done ++ [path].
Proof.
  intros Hfiles Hdone Hfail. split.
  - rewrite collect_run, Hfiles. eapply for_each_stops; eassumption.
  - rewrite reads_app.
    destruct (for_each_records unicode_isalnum ast_parse env done Hdone)
      as [_ ->].
    pose proof (strategy_effects path) as (Hr & _ & _).
    rewrite Hfail in Hr. cbn [snd] in Hr. now rewrite Hr.
Qed.

Lemma run_print_each (results : list str) (k : prog unit) :
  (forall line, console env line = None) ->
  run env (print_each results k)
  = (fst (run env k), printed_paths results ++ snd (run env k)).
Proof.
  intros Hc. induction results as [| res results IH]; simpl.
  - now destruct (run env k).
  - rewrite Hc, IH. reflexivity.
Qed.





Lemma written_files_app (t t' : list effect) :
  written_files (t ++ t') = written_files t ++ written_files t'.
Proof. induction t as [| [] t IH]; simpl; congruence. Qed.

Lemma no_output_no_file (t : list effect) :
  outputs t = [] -> written_files t = [].
Proof.
  induction t as [| [] t IH]; simpl; auto; discriminate.
Qed.

Lemma print_each_writes_no_file (results : list str) :
  written_files (snd (run env (print_each results (Ret tt)))) = [].
Proof.
  induction results as [| res results IH]; simpl; [reflexivity |].
  destruct (console env _); [reflexivity |].
  destruct (run env (print_each results (Ret tt))) as [r t]. exact IH.
Qed.

(** The main block: the loop, then the mode chosen by the arguments. *)
Lemma main_after_loop (fs : os.dir) (argv : list str) :
  run env (main fs argv)
  = match run env (collect (get_code_files fs (txt ".") default_extensions) [])
    with
    | (inl e, t) => (inl e, t)
    | (inr code_info, t) =>
        let (r, t') :=
          run env
            (if 1 <? length argv
             then
               match search_codebase code_info (nth 1 argv []) with
               | _ :: _ =>
                   Print ([0x1F50D%N] ++ txt " Found `" ++ nth 1 argv []
                          ++ txt "` in:")
                     (print_each (search_codebase code_info (nth 1 argv []))
                        (Ret tt))
               | [] =>
                   Print ([0x274C%N] ++ txt " `" ++ nth 1 argv []
                          ++ txt "` not found in the codebase.") (Ret tt)
               end
             else
               _ <- generate_markdown_summary code_info (txt "DevSync.md") ;;
               Print ([0x2705%N] ++ txt " Code summary generated in DevSync.md!")
                 (Ret tt)) in
        (r, t ++ t')
    end.
Proof.
  unfold main. rewrite run_bind.
  change [txt ".py"; txt ".js"; txt ".cpp"; txt ".java"]
    with default_extensions.
  reflexivity.
Qed.


(** X16. Search mode. With an argument the run never opens a file for
    writing, whatever happens. When the loop completes and the system
    refuses no line, the run prints the header and one line per path found
    by the search for the first argument, in order, or the single line
    that says the term was not found, and ends normally; further arguments
    are ignored. *)
Theorem main_search_mode
        (fs : os.dir) (script term : str) (more : list str) :
  written_files (snd (run env (main fs (script :: term :: more)))) = [] /\
  (forall code_info t,
     run env (collect (get_code_files fs (txt ".") default_extensions) [])
       = (inr code_info, t) ->
     (forall line, console env line = None) ->
     run env (main fs (script :: term :: more))
     = (inr tt,
        t ++ match search_codebase code_info term with
             | [] => [Printed ([0x274C%N] ++ txt " `" ++ term
                               ++ txt "` not found in the codebase.")]
             | results =>
                 Printed ([0x1F50D%N] ++ txt " Found `" ++ term ++ txt "` in:")
                 :: printed_paths results
             end)).
Proof.
  split.
  - rewrite main_after_loop.
    pose proof (collect_effects fs) as (_ & _ & Ho). cbv zeta in Ho.
    destruct (run env (collect _ [])) as [[e | code_info] t]; cbn [snd] in *.
    + now apply no_output_no_file.
    + cbn [length Nat.ltb Nat.leb nth].
      destruct (search_codebase code_info term) as [| p results] eqn:E.
      * cbn [run]. destruct (console env _); cbn [snd];
          rewrite ?written_files_app, (no_output_no_file _ Ho); reflexivity.
      * cbn [run]. destruct (console env _); cbn [snd].
        -- rewrite app_nil_r. now apply no_output_no_file.
        -- pose proof (print_each_writes_no_file (p :: results)) as Hp.
           destruct (run env (print_each (p :: results) (Ret tt))) as [r t'].
           cbn [snd] in *. rewrite written_files_app.
           rewrite (no_output_no_file _ Ho). exact Hp.
  - intros code_info t Hloop Hconsole. rewrite main_after_loop, Hloop.
    cbn [length Nat.ltb Nat.leb nth].
    destruct (search_codebase code_info term) as [| p results] eqn:E.
    + cbn [run]. now rewrite Hconsole.
    + cbn [run]. rewrite Hconsole, (run_print_each _ _ Hconsole).
      cbn [run fst snd]. now rewrite app_nil_r.
Qed.

(** X17. No partial output. When an extraction raises, the main block
    ends with that exception right there: no report is written and
    nothing is printed, in either mode, and the records collected so far
    are lost. *)
Theorem main_aborts_without_output
        (fs : os.dir) (argv : list str) (e : exception) (t : list effect) :
  run env (collect (get_code_files fs (txt ".") default_extensions) [])
    = (inl e, t) ->
  run env (main fs argv) = (inl e, t) /\ outputs t = [].
Proof.
  intros Hloop. rewrite main_after_loop, Hloop. split; [reflexivity |].
  pose proof (collect_effects fs) as (_ & _ & Ho). cbv zeta in Ho.
  now rewrite Hloop in Ho.
Qed.

End MainBlock.

(** ** The further theorems at concrete inputs *)

Lemma text_under_99_characters_gets_sentinel_witness :
  length (txt "function greet(){}") < 99 /\
  run silent (generate_ai_summary (txt "function greet(){}"))
    = (inr too_short, []).
Proof.
  assert (H : length (txt "function greet(){}") < 99)
    by (apply Nat.ltb_lt; vm_compute; reflexivity).
  split; [exact H |].
  exact (text_under_99_characters_gets_sentinel silent
           (txt "function greet(){}") H).
Defined.

Lemma class_names_follow_the_keyword_witness :
  In (txt "Shape") (re.findall ascii_only class_pattern shape_cpp) /\
  exists pre ws post,
    shape_cpp = pre ++ txt "class" ++ ws ++ txt "Shape" ++ post /\
    (forall pre' c, pre = pre' ++ [c] -> re.isword ascii_only c = false) /\
    ws <> [] /\ Forall (fun c => py.isspace c = true) ws /\
    txt "Shape" <> [] /\
    Forall (fun c => re.isword ascii_only c = true) (txt "Shape").
Proof.
  assert (H : In (txt "Shape") (re.findall ascii_only class_pattern shape_cpp))
    by (vm_compute; left; reflexivity).
  split; [exact H |].
  exact (class_names_follow_the_keyword ascii_only shape_cpp (txt "Shape") H).
Defined.

Lemma function_names_stand_between_lead_and_parenthesis_witness :
  In (txt "greet")
     (re.findall ascii_only function_pattern (txt "function greet(){}")) /\
  exists pre lead ws ws' post,
    txt "function greet(){}"
    = pre ++ lead ++ ws ++ txt "greet" ++ ws' ++ txt "(" ++ post /\
    function_lead ascii_only lead /\
    Forall (fun c => py.isspace c = true) ws /\
    Forall (fun c => py.isspace c = true) ws' /\
    txt "greet" <> [] /\
    Forall (fun c => re.isword ascii_only c = true) (txt "greet").
Proof.
  assert (H : In (txt "greet")
                 (re.findall ascii_only function_pattern
                    (txt "function greet(){}")))
    by (vm_compute; left; reflexivity).
  split; [exact H |].
  exact (function_names_stand_between_lead_and_parenthesis
           ascii_only (txt "function greet(){}") (txt "greet") H).
Defined.

Lemma pattern_records_have_one_line_names_witness :
  run nested_disk (extract_js_cpp_info ascii_only (txt "./src/b.js"))
    = (inr (FileInfo (txt "./src/b.js") [txt "A"] [] too_short),
       [Read (txt "./src/b.js")]) /\
  printable (FileInfo (txt "./src/b.js") [txt "A"] [] too_short) = true.
Proof.
  assert (H : run nested_disk
                  (extract_js_cpp_info ascii_only (txt "./src/b.js"))
              = (inr (FileInfo (txt "./src/b.js") [txt "A"] [] too_short),
                 [Read (txt "./src/b.js")]))
    by (vm_compute; reflexivity).
  split; [exact H |].
  exact (proj2 (proj2 (pattern_records_have_one_line_names
                         ascii_only nested_disk (txt "./src/b.js") H))
               eq_refl eq_refl).
Defined.

Lemma discovered_paths_name_their_files_witness :
  In (txt "./src/b.js")
     (get_code_files small_tree (txt ".") default_extensions) /\
  py.startswith (txt "./src/b.js") (with_separator (txt ".")) = true /\
  has_extension default_extensions (py.basename (txt "./src/b.js")).
Proof.
  assert (H : In (txt "./src/b.js")
                 (get_code_files small_tree (txt ".") default_extensions))
    by (vm_compute; right; left; reflexivity).
  split; [exact H |].
  pose proof (discovered_paths_name_their_files
                (txt ".") default_extensions (txt "./src/b.js")
                small_tree_well_formed H) as (H1 & H2 & _).
  exact (conj H1 H2).
Defined.

Lemma small_tree_loop :
  run nested_disk
      (collect ascii_only nested_parser
         (get_code_files small_tree (txt ".") default_extensions) [])
  = (inr small_records, small_reads).
Proof. vm_compute. reflexivity. Defined.


Lemma main_search_mode_witness :
  run nested_disk
      (main ascii_only nested_parser small_tree
         [txt "devsync.py"; txt "Missing"; txt "ignored"])
  = (inr tt,
     small_reads
     ++ match search_codebase small_records (txt "Missing") with
        | [] => [Printed ([0x274C%N] ++ txt " `" ++ txt "Missing"
                          ++ txt "` not found in the codebase.")]
        | results =>
            Printed ([0x1F50D%N] ++ txt " Found `" ++ txt "Missing"
                     ++ txt "` in:")
            :: printed_paths results
        end).
Proof.
  exact (proj2 (main_search_mode ascii_only nested_parser nested_disk
                  small_tree (txt "devsync.py") (txt "Missing")
                  [txt "ignored"])
               small_records small_reads small_tree_loop
               (fun _ => eq_refl)).
Defined.

Lemma small_tree_refused :
  run nested_disk
      (collect ascii_only refusing_parser
         (get_code_files small_tree (txt ".") default_extensions) [])
  = (inl SyntaxError, [Read (txt "./a.py")]).
Proof. vm_compute. reflexivity. Defined.

Lemma main_aborts_without_output_witness :
  run nested_disk (main ascii_only refusing_parser small_tree [])
    = (inl SyntaxError, [Read (txt "./a.py")]) /\
  outputs [Read (txt "./a.py")] = [].
Proof.
  exact (main_aborts_without_output ascii_only refusing_parser nested_disk
           small_tree [] small_tree_refused).
Defined.

Lemma first_failure_stops_the_loop_witness :
  run nested_disk
      (collect ascii_only refusing_parser
         (get_code_files small_tree (txt ".") default_extensions) [])
    = (inl SyntaxError, [] ++ [Read (txt "./a.py")]) /\
  reads ([] ++ [Read (txt "./a.py")]) = [] ++ [txt "./a.py"].
Proof.
  apply (first_failure_stops_the_loop ascii_only refusing_parser nested_disk
           small_tree [] [txt "./src/b.js"] (txt "./a.py")
           (infos := []) (t := []) (t1 := [Read (txt "./a.py")])
           (e := SyntaxError));
    vm_compute; reflexivity.
Defined.

Lemma names_follow_the_scan_witness :
  disk nested_disk (txt "./a.py") = inr nested_text /\
  fst (run nested_disk (extract_js_cpp_info ascii_only (txt "./a.py")))
    = inr (FileInfo (txt "./a.py")
             (map group_text
                (re.finditer ascii_only class_pattern nested_text))
             (map group_text
                (re.finditer ascii_only function_pattern nested_text))
             too_short) /\
  fst (run nested_disk (extract_python_info nested_parser (txt "./a.py")))
    = inr (FileInfo (txt "./a.py")
             (names_by_level ast.ClassDef nested_example)
             (names_by_level ast.FunctionDef nested_example)
             too_short).
Proof.
  assert (H : disk nested_disk (txt "./a.py") = inr nested_text)
    by reflexivity.
  split; [exact H |].
  pose proof (names_follow_the_scan ascii_only nested_parser nested_disk
                (txt "./a.py") H) as [(_ & _ & _ & _ & Hjs) Hpy].
  split; [exact Hjs | exact (Hpy nested_example eq_refl)].
Defined.

(** A file name that is not valid UTF-8 passes the loop and stops the
    report: the title is written, the heading of the file cannot be
    encoded, and no confirmation is printed. *)
Example report_stops_at_a_surrogate (unicode_isalnum : char -> bool) :
  run nested_disk
      (main unicode_isalnum nested_parser surrogate_tree [txt "devsync.py"])
  = (inl UnicodeEncodeError,
     [Read (txt "./" ++ [0xDCFF%N] ++ txt ".js");
      Wrote (txt "DevSync.md")
            (txt "# CodeMap Summary (AI-Powered) " ++ [0x1F916%N; LF; LF])]).
Proof. vm_compute. reflexivity. Qed.
